(** * LaVideoLaPlusVue: the avatar enrichment script and the report script

    A shallow embedding of
    - [LaVideoLaPlusVue/Data/fetch_channel_avatars.py] (module [Enrich]) and
    - [visualize_youtube_db.py] (module [Report]),
    and the properties of the two pipelines.

    Modelling conventions.
    - A JSON value is a [json]; a Python [dict] with string keys is an
      association list in insertion order, so that adding a key appends it
      and overwriting a key keeps its place, as in Python.  JSON numbers are
      integers (the data model has no other number).  A file is the value
      that [json.load] reads from it: [json.dump] followed by [json.load] is
      taken to be the identity.
    - The dataset is typed as the source annotates it ([List[Dict]]): a list
      of records.  The values stored in a record and the whole reply of the
      remote API are untyped [json], and every operation that Python checks
      at run time ([x in y], [y[k]], hashing, [str.join]) is a partial
      function that raises.
    - An exception is a value of [exn]; [sys.exit(n)] raises [SystemExit n];
      the status of the process is read off the outcome of [main].
    - Files, the network and the iteration order of a [set] are oracles
      collected in a [world].
    - In-place mutation of the records is explicit state passing: a function
      that mutates its argument returns the collection as it is afterwards,
      also when it raises.  [json.load] never yields two references to one
      object, the records are not aliased.
    - The console takes the messages of the scripts themselves (their text,
      the numbers and paths in them, the messages of the exceptions).  A
      text that comes from outside, a title or a URL of a reply of the API
      or an id of the dataset, may hold characters that the encoding of
      [sys.stdout] lacks: whether it can be printed is an oracle of the
      world, and [print] raises [UnicodeEncodeError] when it cannot.  The
      enrichment script prints such texts inside the [try] block of the
      Batch Fetcher only, where the three prints are modelled; what is
      printed is not recorded.  In the report script [print] is left out. *)

From stdpp Require Import gmap strings list sorting pretty.
From Stdlib Require Import ZArith Lia.

Local Open Scope string_scope.
Local Open Scope list_scope.
Local Open Scope nat_scope.
Local Open Scope stdpp_scope.
Set Warnings "-register-all".

(** ** Python values *)

Inductive json :=
  | JNull
  | JBool (b : bool)
  | JInt (n : Z)
  | JStr (s : string)
  | JArr (l : list json)
  | JObj (kvs : list (string * json)).

(** A [dict] whose keys are strings. *)
Abbreviation pydict := (list (string * json)).

(** A record of the dataset (one video). *)
Abbreviation record := (list (string * json)).

Inductive exn :=
  | TypeError
  | KeyError
  | AttributeError
  | ValueError
  | ZeroDivisionError
  | OSError
  | UnicodeEncodeError
  | RequestException
  | SystemExit (code : Z).

Inductive result (A : Type) :=
  | Ok (a : A)
  | Raise (e : exn).
Arguments Ok {A} a.
Arguments Raise {A} e.

#[export] Instance result_ret : MRet result := fun _ a => Ok a.
#[export] Instance result_bind : MBind result := fun _ _ f r =>
  match r with Ok a => f a | Raise e => Raise e end.
#[export] Instance result_fmap : FMap result := fun _ _ f r =>
  match r with Ok a => Ok (f a) | Raise e => Raise e end.

(** [k in d] and [d[k]] and [d.get(k, dflt)] and [d[k] = v] on a dict. *)
Fixpoint dict_get (k : string) (d : pydict) : option json :=
  match d with
  | [] => None
  | (k', v) :: d' => if String.eqb k' k then Some v else dict_get k d'
  end.

Definition dict_has (k : string) (d : pydict) : bool :=
  match dict_get k d with Some _ => true | None => false end.

Definition dict_item (k : string) (d : pydict) : result json :=
  match dict_get k d with Some v => Ok v | None => Raise KeyError end.

Definition dict_get_default (k : string) (dflt : json) (d : pydict) : json :=
  match dict_get k d with Some v => v | None => dflt end.

Fixpoint dict_set (k : string) (v : json) (d : pydict) : pydict :=
  match d with
  | [] => [(k, v)]
  | (k', v') :: d' =>
      if String.eqb k' k then (k', v) :: d' else (k', v') :: dict_set k v d'
  end.

(** [needle in hay] on two strings. *)
Fixpoint substringb (needle hay : string) : bool :=
  String.prefix needle hay ||
  match hay with
  | EmptyString => false
  | String _ hay' => substringb needle hay'
  end.

Definition is_str (k : string) (v : json) : bool :=
  match v with JStr s => String.eqb s k | _ => false end.

(** [k in c] for a string [k]: key of a dict, element of a list, substring
    of a string; a [TypeError] on the values that are not containers. *)
Definition py_contains (k : string) (c : json) : result bool :=
  match c with
  | JObj d => Ok (dict_has k d)
  | JArr l => Ok (existsb (is_str k) l)
  | JStr s => Ok (substringb k s)
  | _ => Raise TypeError
  end.

(** [c[k]] for a string [k]: only a dict can be indexed by a string. *)
Definition py_getitem (c : json) (k : string) : result json :=
  match c with
  | JObj d => dict_item k d
  | _ => Raise TypeError
  end.

Fixpoint chars (s : string) : list json :=
  match s with
  | EmptyString => []
  | String a s' => JStr (String a EmptyString) :: chars s'
  end.

(** [for x in c]: the elements of a list, the keys of a dict, the characters
    of a string. *)
Definition py_iter (c : json) : result (list json) :=
  match c with
  | JArr l => Ok l
  | JObj d => Ok (map (fun kv => JStr (fst kv)) d)
  | JStr s => Ok (chars s)
  | _ => Raise TypeError
  end.

(** Truth value of [if v:]. *)
Definition truthy (v : json) : bool :=
  match v with
  | JNull => false
  | JBool b => b
  | JInt n => negb (Z.eqb n 0)
  | JStr s => negb (String.eqb s "")
  | JArr l => match l with [] => false | _ => true end
  | JObj d => match d with [] => false | _ => true end
  end.

(** Keys of a [set] or [dict]: a hashable value up to Python's [==], under
    which [True == 1] and [False == 0]; lists and dicts are unhashable. *)
Inductive hkey :=
  | KNull
  | KInt (n : Z)
  | KStr (s : string).

#[export] Instance hkey_eq_dec : EqDecision hkey.
Proof. solve_decision. Defined.

#[export] Instance hkey_countable : Countable hkey.
Proof.
  refine (inj_countable'
    (fun k => match k with
              | KNull => inl ()
              | KInt n => inr (inl n)
              | KStr s => inr (inr s)
              end)
    (fun x => match x with
              | inl _ => KNull
              | inr (inl n) => KInt n
              | inr (inr s) => KStr s
              end) _).
  by intros [].
Defined.

Definition hash_key (v : json) : result hkey :=
  match v with
  | JNull => Ok KNull
  | JBool b => Ok (KInt (Z.b2z b))
  | JInt n => Ok (KInt n)
  | JStr s => Ok (KStr s)
  | JArr _ | JObj _ => Raise TypeError
  end.

(** [range(start, stop, step)] for a positive step. *)
Fixpoint range_from (fuel i stop step : nat) : list nat :=
  match fuel with
  | O => []
  | S fuel' =>
      if Nat.ltb i stop then i :: range_from fuel' (i + step) stop step else []
  end.

Definition py_range (start stop step : nat) : list nat :=
  range_from stop start stop step.

(** [l[i:j]] for [0 <= i <= j]. *)
Definition py_slice {A} (l : list A) (i j : nat) : list A :=
  take (j - i) (drop i l).

(** ** The outside world *)

(** A piece of generated text: the literal text of a template, or a value
    interpolated into it.  The characters that [str(v)] produces are not
    computed. *)
Inductive frag :=
  | Lit (s : string)
  | Str (v : json)
  | Num (n : nat)
  | Grouped (n : Z)
  | Quoted (s : string).

(** What a path of the file system holds: a JSON array of objects, a
    generated page, or anything that [json.load] rejects. *)
Inductive file :=
  | FDataset (data : list record)
  | FPage (doc : list frag)
  | FOther.

(** What [open(path, 'w')] followed by a write does: it succeeds, or [open]
    raises and the file is untouched, or the write raises after [open] has
    truncated the file. *)
Inductive write_result :=
  | Written
  | OpenFails
  | WriteFails.

(** One [GET .../channels]; the [id] parameter is [",".join(req_ids)]. *)
Record request := Request {
  req_ids : list string;
  req_key : string;
}.

(** The reply to a request: [requests.get] raises, [raise_for_status]
    raises, [response.json()] raises, or the body is the JSON value [data]. *)
Inductive reply :=
  | ConnectionFails
  | BadStatus
  | BadBody
  | Body (data : json).

Record world := World {
  disk : gmap string file;
  sent : list request;
  (* oracles *)
  write_outcome : string → write_result;
  api : nat → request → reply;
  set_order : gset hkey → list hkey;
  now : string;
  stdout_encodes : json → bool;
}.

Definition set_disk (d : gmap string file) (w : world) : world :=
  World d (sent w) (write_outcome w) (api w) (set_order w) (now w)
    (stdout_encodes w).

Definition log_request (r : request) (w : world) : world :=
  World (disk w) (sent w ++ [r]) (write_outcome w) (api w) (set_order w) (now w)
    (stdout_encodes w).

(** Programs that read and change the world and may raise. *)
Definition io (A : Type) : Type := world → world * result A.

#[export] Instance io_ret : MRet io := fun _ a w => (w, Ok a).
#[export] Instance io_bind : MBind io := fun _ _ f m w =>
  match m w with
  | (w', Ok a) => f a w'
  | (w', Raise e) => (w', Raise e)
  end.

Definition raise {A} (e : exn) : io A := fun w => (w, Raise e).
Definition lift {A} (r : result A) : io A := fun w => (w, r).
Definition ask {A} (f : world → A) : io A := fun w => (w, Ok (f w)).

(** [sys.exit(code)]. *)
Definition sys_exit {A} (code : Z) : io A := raise (SystemExit code).

(** The status with which the interpreter ends when the script's [main()]
    ends with [r]: 0 when it returns, the code of a [SystemExit], 1 on any
    other exception. *)
Definition exit_status {A} (r : result A) : Z :=
  match r with
  | Ok _ => 0
  | Raise (SystemExit code) => code
  | Raise _ => 1
  end.

(** [print] of a line that interpolates the values [vs], which come from
    outside the script: [console v] tells whether the encoding of
    [sys.stdout] has the characters of the text of [v]. *)
Definition print_values (console : json → bool) (vs : list json) : result () :=
  if forallb console vs then Ok () else Raise UnicodeEncodeError.

(** The value that a key of a [set] stands for. *)
Definition key_value (k : hkey) : json :=
  match k with
  | KNull => JNull
  | KInt n => JInt n
  | KStr s => JStr s
  end.

(** [with open(path, 'w') as f: <write content>]. *)
Definition write_file (path : string) (content : file) : io () := fun w =>
  match write_outcome w path with
  | Written => (set_disk (<[path := content]> (disk w)) w, Ok ())
  | OpenFails => (w, Raise OSError)
  | WriteFails => (set_disk (<[path := FOther]> (disk w)) w, Raise OSError)
  end.

(** [with open(path) as f: json.load(f)]. *)
Definition read_json (path : string) : io (list record) := fun w =>
  match disk w !! path with
  | Some (FDataset data) => (w, Ok data)
  | Some _ => (w, Raise ValueError)
  | None => (w, Raise OSError)
  end.

(** [try: body except Exception: handler]; [SystemExit] is not an
    [Exception]. *)
Definition try_except {A} (body : io A) (handler : exn → io A) : io A := fun w =>
  match body w with
  | (w', Raise (SystemExit code)) => (w', Raise (SystemExit code))
  | (w', Raise e) => handler e w'
  | (w', Ok a) => (w', Ok a)
  end.

(** ** [fetch_channel_avatars.py] *)

Module Enrich.

Definition PLACEHOLDER : string := "YOUR_YOUTUBE_API_KEY_HERE".
Definition DATA_JSON_PATH : string := "data.json".
Definition BACKUP_PATH : string := "data_backup.json".
Definition batch_size : nat := 50.
Definition qualities : list string := ["high"; "medium"; "default"].

Section with_key.

(** The script ships with [YOUTUBE_API_KEY = PLACEHOLDER] and asks its user
    to edit the constant: it is a parameter here. *)
Variable YOUTUBE_API_KEY : string.

Definition load_json_data (file_path : string) : io (list record) :=
  try_except (read_json file_path) (fun _ => sys_exit 1).

Definition save_json_data (data : list record) (file_path : string) : io () :=
  try_except (write_file file_path (FDataset data)) (fun _ => sys_exit 1).

Fixpoint extract_loop (data : list record) (channel_ids : gset hkey)
  : result (gset hkey) :=
  match data with
  | [] => Ok channel_ids
  | item :: rest =>
      if dict_has "channelId" item then
        v ← dict_item "channelId" item;
        k ← hash_key v;
        extract_loop rest (channel_ids ∪ {[k]})
      else extract_loop rest channel_ids
  end.

Definition extract_unique_channel_ids (data : list record) : result (gset hkey) :=
  extract_loop data ∅.

(** The [for quality in [...]] loop with its [break]; [avatar_url] starts as
    [None]. *)
Fixpoint pick_quality (qs : list string) (thumbnails : json) : result json :=
  match qs with
  | [] => Ok JNull
  | quality :: qs' =>
      present ← py_contains quality thumbnails;
      if (present : bool) then
        thumbnail ← py_getitem thumbnails quality;
        py_getitem thumbnail "url"
      else pick_quality qs' thumbnails
  end.

Definition select_avatar (thumbnails : json) : result json :=
  pick_quality qualities thumbnails.

(** What the body of [for item in data['items']] reads before it touches
    the dict: the id, the title and the selected avatar. *)
Definition read_item (item : json) : result (json * json * json) :=
  channel_id ← py_getitem item "id";
  snippet ← py_getitem item "snippet";
  channel_title ← py_getitem snippet "title";
  thumbnails ← py_getitem snippet "thumbnails";
  avatar_url ← select_avatar thumbnails;
  Ok (channel_id, channel_title, avatar_url).

(** The body of [for item in data['items']]: the dict [avatar_urls] as the
    body leaves it, and how the body ends.  Each branch of [if avatar_url:]
    ends with a [print] of the title; in the first branch the dict has been
    changed by then, so that an item whose line cannot be printed raises
    with its avatar recorded. *)
Definition process_item (console : json → bool) (avatar_urls : gmap hkey json)
    (item : json) : gmap hkey json * result () :=
  match read_item item with
  | Raise e => (avatar_urls, Raise e)
  | Ok (channel_id, channel_title, avatar_url) =>
      if truthy avatar_url then
        match hash_key channel_id with
        | Raise e => (avatar_urls, Raise e)
        | Ok k =>
            (<[k := avatar_url]> avatar_urls,
             print_values console [channel_title; avatar_url])
        end
      else (avatar_urls, print_values console [channel_title])
  end.

(** The loop over the items: the dict as it is after the loop, and whether
    the loop ended or raised. *)
Fixpoint process_items (console : json → bool) (items : list json)
    (avatar_urls : gmap hkey json) : gmap hkey json * result () :=
  match items with
  | [] => (avatar_urls, Ok ())
  | item :: rest =>
      match process_item console avatar_urls item with
      | (avatar_urls', Ok _) => process_items console rest avatar_urls'
      | (avatar_urls', Raise e) => (avatar_urls', Raise e)
      end
  end.

(** [set(batch) - set(item['id'] for item in data.get('items', []))]. *)
Definition missing_ids (data : json) (batch : list hkey) : result (gset hkey) :=
  match data with
  | JObj d =>
      items ← py_iter (dict_get_default "items" (JArr []) d);
      found ← mapM (fun item => py_getitem item "id" ≫= hash_key) items;
      Ok (list_to_set batch ∖ list_to_set found)
  | _ => Raise AttributeError
  end.

(** [for missing_id in missing_ids: print(...)]: one line per id. *)
Definition report_missing (console : json → bool) (data : json)
    (batch : list hkey) : result () :=
  missing ← missing_ids data batch;
  print_values console (key_value <$> elements missing).

(** The statements of the [try] block that follow [data = response.json()]. *)
Definition handle_data (console : json → bool) (data : json)
    (batch : list hkey) (avatar_urls : gmap hkey json)
  : gmap hkey json * result () :=
  match py_contains "items" data with
  | Raise e => (avatar_urls, Raise e)
  | Ok false => (avatar_urls, report_missing console data batch)
  | Ok true =>
      match py_getitem data "items" ≫= py_iter with
      | Raise e => (avatar_urls, Raise e)
      | Ok items =>
          match process_items console items avatar_urls with
          | (avatar_urls', Ok _) =>
              (avatar_urls', report_missing console data batch)
          | (avatar_urls', Raise e) => (avatar_urls', Raise e)
          end
      end
  end.

(** [",".join(batch)] raises on an element that is not a [str]. *)
Fixpoint str_join (batch : list hkey) : result (list string) :=
  match batch with
  | [] => Ok []
  | KStr s :: rest => ids ← str_join rest; Ok (s :: ids)
  | _ :: _ => Raise TypeError
  end.

Definition requests_get (req : request) : io reply := fun w =>
  (log_request req w, Ok (api w (length (sent w)) req)).

(** The [try] block once the reply is there: the dict as the block leaves
    it, and how the block ends. *)
Definition try_block (console : json → bool) (response : reply)
    (batch : list hkey) (avatar_urls : gmap hkey json)
  : gmap hkey json * result () :=
  match response with
  | ConnectionFails | BadStatus | BadBody => (avatar_urls, Raise RequestException)
  | Body data => handle_data console data batch avatar_urls
  end.

(** [except RequestException] and [except Exception] both [continue]: the
    loop goes on with the dict as the [try] block left it. *)
Definition after_response (console : json → bool) (response : reply)
    (batch : list hkey) (avatar_urls : gmap hkey json) : gmap hkey json :=
  (try_block console response batch avatar_urls).1.

(** One turn of the loop over the batches.  The join is outside the [try]:
    its [TypeError] ends the loop. *)
Definition fetch_batch (batch : list hkey) (avatar_urls : gmap hkey json)
  : io (gmap hkey json) :=
  ids ← lift (str_join batch);
  response ← requests_get (Request ids YOUTUBE_API_KEY);
  console ← ask stdout_encodes;
  mret (after_response console response batch avatar_urls).

Fixpoint fetch_loop (starts : list nat) (channel_ids : list hkey)
    (avatar_urls : gmap hkey json) : io (gmap hkey json) :=
  match starts with
  | [] => mret avatar_urls
  | i :: starts' =>
      avatar_urls' ←
        fetch_batch (py_slice channel_ids i (i + batch_size)) avatar_urls;
      fetch_loop starts' channel_ids avatar_urls'
  end.

Definition key_configured : bool :=
  negb (String.eqb YOUTUBE_API_KEY "") &&
  negb (String.eqb YOUTUBE_API_KEY PLACEHOLDER).

Definition fetch_channel_avatars_batch (channel_ids : list hkey)
  : io (gmap hkey json) :=
  if key_configured then
    fetch_loop (py_range 0 (length channel_ids) batch_size) channel_ids ∅
  else sys_exit 1.

(** The body of the loop of the Merger: the item as it is afterwards and
    whether it was counted. *)
Definition enrich_item (avatar_urls : gmap hkey json) (item : record)
  : result (record * nat) :=
  if dict_has "channelId" item then
    v ← dict_item "channelId" item;
    k ← hash_key v;
    match avatar_urls !! k with
    | Some url => Ok (dict_set "channelAvatarUrl" url item, 1)
    | None => Ok (item, 0)
    end
  else Ok (item, 0).

(** The records are changed in place: the first component is the collection
    as the loop leaves it, the second the count, or the exception. *)
Fixpoint enrich_loop (avatar_urls : gmap hkey json) (data : list record)
    (enriched_count : nat) : list record * result nat :=
  match data with
  | [] => ([], Ok enriched_count)
  | item :: rest =>
      match enrich_item avatar_urls item with
      | Ok (item', n) =>
          let '(rest', r) := enrich_loop avatar_urls rest (enriched_count + n) in
          (item' :: rest', r)
      | Raise e => (item :: rest, Raise e)
      end
  end.

(** The collection after the call, and what the call returns (the same
    list). *)
Definition enrich_data_with_avatars (data : list record)
    (avatar_urls : gmap hkey json) : list record * result (list record) :=
  let '(data', r) := enrich_loop avatar_urls data 0 in
  (data', (fun _ => data') <$> r).

Definition main : io () :=
  data ← load_json_data DATA_JSON_PATH;
  _ ← save_json_data data BACKUP_PATH;
  channel_ids ← lift (extract_unique_channel_ids data);
  if bool_decide (channel_ids = ∅) then sys_exit 1 else
  order ← ask set_order;
  avatar_urls ← fetch_channel_avatars_batch (order channel_ids);
  if bool_decide (avatar_urls = ∅) then sys_exit 1 else
  enriched_data ← lift (snd (enrich_data_with_avatars data avatar_urls));
  save_json_data enriched_data DATA_JSON_PATH.

End with_key.

End Enrich.

(** ** [visualize_youtube_db.py] *)

Module Report.

Definition data_file : string := "LaVideoLaPlusVue/Data/data.json".
Definition output_file : string := "youtube_db_visualization.html".

(** The key of a group: the tuple [(channelId, channelTitle, avatar)] as the
    first video of the group gave it. *)
Abbreviation chan_key := (json * json * json)%type.

(** A tuple is hashed component by component. *)
Definition hash_tuple (key : chan_key) : result (hkey * hkey * hkey) :=
  a ← hash_key key.1.1;
  b ← hash_key key.1.2;
  c ← hash_key key.2;
  Ok (a, b, c).

Definition same_key (h : hkey * hkey * hkey) (key : chan_key) : bool :=
  match hash_tuple key with
  | Ok h' => bool_decide (h' = h)
  | Raise _ => false
  end.

(** [channels[channel_key].append(video)] on a [defaultdict(list)], whose
    items are kept in the order in which the keys came. *)
Fixpoint add_video (h : hkey * hkey * hkey) (key : chan_key) (video : record)
    (channels : list (chan_key * list record)) : list (chan_key * list record) :=
  match channels with
  | [] => [(key, [video])]
  | (key', videos) :: rest =>
      if same_key h key' then (key', videos ++ [video]) :: rest
      else (key', videos) :: add_video h key video rest
  end.

Definition channel_key (video : record) : result chan_key :=
  channel_id ← dict_item "channelId" video;
  channel_title ← dict_item "channelTitle" video;
  Ok (channel_id, channel_title,
      dict_get_default "channelAvatarUrl" (JStr "") video).

Fixpoint group_loop (videos : list record)
    (channels : list (chan_key * list record))
  : result (list (chan_key * list record)) :=
  match videos with
  | [] => Ok channels
  | video :: rest =>
      key ← channel_key video;
      h ← hash_tuple key;
      group_loop rest (add_video h key video channels)
  end.

(** [sorted(items, key=lambda x: len(x[1]), reverse=True)]: a stable sort,
    larger groups first. *)
Fixpoint insert_desc (x : chan_key * list record)
    (l : list (chan_key * list record)) : list (chan_key * list record) :=
  match l with
  | [] => [x]
  | y :: l' =>
      if Nat.ltb (length x.2) (length y.2) then y :: insert_desc x l'
      else x :: y :: l'
  end.

Definition sorted_desc (l : list (chan_key * list record))
  : list (chan_key * list record) :=
  foldr insert_desc [] l.

Definition group_videos_by_channel (videos : list record)
  : result (list (chan_key * list record)) :=
  channels ← group_loop videos [];
  Ok (sorted_desc channels).

(** The format [{num:,}] accepts a number only. *)
Definition format_number (num : json) : result frag :=
  match num with
  | JInt n => Ok (Grouped n)
  | JBool b => Ok (Grouped (Z.b2z b))
  | JStr _ => Raise ValueError
  | JNull | JArr _ | JObj _ => Raise TypeError
  end.

(** [title.replace(...)], which escapes the double quotes, is a method of
    [str]. *)
Definition replace_quotes (title : json) : result frag :=
  match title with
  | JStr s => Ok (Quoted s)
  | _ => Raise AttributeError
  end.

(** The generated page, with the literal text of the template abbreviated. *)
Definition render_video (video : record) : result (list frag) :=
  view_count ← format_number (dict_get_default "viewCount" (JInt 0) video);
  let thumbnail_url := dict_get_default "thumbnailUrl" (JStr "") video in
  let title := dict_get_default "title" (JStr "Sans titre") video in
  quoted ← replace_quotes title;
  Ok ([Lit "<div class=video-item title="; quoted; Lit ">"] ++
      (if truthy thumbnail_url
       then [Lit "<img src="; Str thumbnail_url; Lit " alt="; quoted; Lit ">"]
       else [Lit "<div class=missing>Miniature non disponible</div>"]) ++
      [Lit "<div class=video-views>"; view_count; Lit " vues</div></div>"]).

Definition render_channel (entry : chan_key * list record) : result (list frag) :=
  let '((channel_id, channel_name, avatar_url), videos) := entry in
  let video_count := length videos in
  cards ← mapM render_video videos;
  Ok ([Lit "<div class=channel-section><div class=channel-header>"] ++
      (if truthy avatar_url
       then [Lit "<img src="; Str avatar_url; Lit " alt="; Str channel_name; Lit ">"]
       else [Lit "<div class=missing></div>"]) ++
      [Lit "<div class=channel-name>"; Str channel_name;
       Lit "</div><div class=video-count>"; Num video_count;
       Lit (if Nat.ltb 1 video_count then " videos" else " video");
       Lit "</div></div><div class=videos-grid>"] ++
      concat cards ++ [Lit "</div></div>"]).

Definition generate_html (channels_data : list (chan_key * list record))
    (timestamp : string) : result (list frag) :=
  let total_videos := sum_list (map (fun entry => length entry.2) channels_data) in
  let total_channels := length channels_data in
  sections ← mapM render_channel channels_data;
  Ok ([Lit "<html><div class=stats>"; Num total_channels;
       Grouped (Z.of_nat total_videos); Lit "</div>"] ++
      concat sections ++
      [Lit "<div class=timestamp>"; Lit timestamp; Lit "</div></html>"]).

(** [a / b] on two lengths, as the fraction. *)
Definition true_div (a b : nat) : result (nat * nat) :=
  match b with
  | O => Raise ZeroDivisionError
  | S _ => Ok (a, b)
  end.

Definition path_exists (path : string) : io bool :=
  ask (fun w => bool_decide (is_Some (disk w !! path))).

Definition load_youtube_data (file_path : string) : io (list record) :=
  read_json file_path.

Definition main : io () :=
  found ← path_exists data_file;
  if negb found then mret () else
  videos ← load_youtube_data data_file;
  channels ← lift (group_videos_by_channel videos);
  timestamp ← ask now;
  html_content ← lift (generate_html channels timestamp);
  _ ← write_file output_file (FPage html_content);
  _ ← lift (true_div (length videos) (length channels));
  mret ().

End Report.

(** * Definitions used in the statements and in the proofs *)

(** The requests that the loop of the Batch Fetcher sends for the start
    indices [starts]. *)
Definition chunk_requests (key : string) (ids : list string) (starts : list nat)
  : list request :=
  map (fun i => Request (py_slice ids i (i + 50)) key) starts.

Definition log_requests (rs : list request) (w : world) : world :=
  World (disk w) (sent w ++ rs) (write_outcome w) (api w) (set_order w) (now w)
    (stdout_encodes w).

(** The reply to the request of the chunk that starts at [i], sent after
    those of the chunks [s1], and the mapping that the chunk leaves when it
    finds [m]. *)
Definition chunk_reply (key : string) (ids : list string) (s1 : list nat)
    (i : nat) (w : world) : reply :=
  api w (length (sent w) + length s1) (Request (py_slice ids i (i + 50)) key).

Definition chunk_leaves (key : string) (ids : list string) (s1 : list nat)
    (i : nat) (w : world) (m : gmap hkey json) : gmap hkey json :=
  Enrich.after_response (stdout_encodes w) (chunk_reply key ids s1 i w)
    (KStr <$> py_slice ids i (i + 50)) m.

(** The best thumbnail as the specification words it: the first of [high],
    [medium], [default] that is a key of the mapping. *)
Definition first_present (thumbnails : pydict) : option string :=
  List.find (fun quality => dict_has quality thumbnails)
    ["high"; "medium"; "default"].

(** The avatar that the mapping has for the channel of a record, when the
    record has a [channelId] and its value is a key of the mapping. *)
Definition avatar_of (avatar_urls : gmap hkey json) (item : record) : option json :=
  match dict_get "channelId" item with
  | Some v =>
      match hash_key v with
      | Ok k => avatar_urls !! k
      | Raise _ => None
      end
  | None => None
  end.

(** What the Merger may do to one record. *)
Definition merger_frame (avatar_urls : gmap hkey json) (r r' : record) : Prop :=
  (avatar_of avatar_urls r = None → r' = r)
  ∧ (r' = r ∨ ∃ url, avatar_of avatar_urls r = Some url
                      ∧ r' = dict_set "channelAvatarUrl" url r)
  ∧ (∀ field, field ≠ "channelAvatarUrl" → dict_get field r' = dict_get field r)
  ∧ dict_get "channelId" r' = dict_get "channelId" r.

(** The dataset that the Loader obtains, if any. *)
Definition loads (w : world) : option (list record) :=
  match disk w !! Enrich.DATA_JSON_PATH with
  | Some (FDataset d) => Some d
  | _ => None
  end.

(** The [channelId] of a record, where there is one, is a string, as in the
    data model. *)
Definition string_id (r : record) : bool :=
  match dict_get "channelId" r with
  | Some (JStr _) | None => true
  | Some _ => false
  end.

Definition is_kstr (k : hkey) : bool :=
  match k with KStr _ => true | _ => false end.

(** The conditions under which the enrichment run ends with a non-zero
    status. *)
Definition load_failure (w : world) : Prop := loads w = None.

Definition save_failure (w : world) : Prop :=
  write_outcome w Enrich.BACKUP_PATH ≠ Written
  ∨ write_outcome w Enrich.DATA_JSON_PATH ≠ Written.

Definition bad_credential (key : string) : Prop :=
  key = "" ∨ key = Enrich.PLACEHOLDER.

Definition no_channel_ids (w : world) : Prop :=
  ∃ d, loads w = Some d ∧ Enrich.extract_unique_channel_ids d = Ok ∅.

Definition no_avatars (key : string) (w : world) : Prop :=
  ∃ d channel_ids w',
    loads w = Some d
    ∧ Enrich.extract_unique_channel_ids d = Ok channel_ids
    ∧ Enrich.fetch_channel_avatars_batch key (set_order w channel_ids) w
      = (w', Ok ∅).

(** The records that the Grouper can key: [channelId] and [channelTitle]
    are there, and they and the avatar, if any, are hashable (strings, in
    the data model). *)
Definition hashable (v : json) : bool :=
  match v with
  | JArr _ | JObj _ => false
  | _ => true
  end.

Definition groupable (video : record) : bool :=
  match dict_get "channelId" video, dict_get "channelTitle" video with
  | Some c, Some t =>
      hashable c && hashable t
      && hashable (dict_get_default "channelAvatarUrl" (JStr "") video)
  | _, _ => false
  end.

(** The composite key of a record, as the dict of the Grouper compares it. *)
Definition group_key (video : record) : option (hkey * hkey * hkey) :=
  match Report.channel_key video ≫= Report.hash_tuple with
  | Ok h => Some h
  | Raise _ => None
  end.

Definition group_hash (g : Report.chan_key * list record)
  : result (hkey * hkey * hkey) :=
  Report.hash_tuple g.1.

(** A group is the records of the collection that have its key, in the
    order of the collection, and there is at least one. *)
Definition is_group_of (videos : list record)
    (g : Report.chan_key * list record) : Prop :=
  ∃ h, group_hash g = Ok h
       ∧ g.2 = filter (fun video => group_key video = Some h) videos
       ∧ g.2 ≠ [].

Definition bigger_first (g1 g2 : Report.chan_key * list record) : Prop :=
  length g2.2 ≤ length g1.2.

(** What [add_video] does to a group of the dict. *)
Definition touch (h : hkey * hkey * hkey) (video : record)
    (g : Report.chan_key * list record) : Report.chan_key * list record :=
  if Report.same_key h g.1 then (g.1, g.2 ++ [video]) else g.

(** What holds of the dict of the Grouper after the videos [prefix]. *)
Definition grouped (prefix : list record)
    (channels : list (Report.chan_key * list record)) : Prop :=
  concat (snd <$> channels) ≡ₚ prefix
  ∧ NoDup (group_hash <$> channels)
  ∧ Forall (is_group_of prefix) channels.

(** The composite key of a record as the specification words it: the
    [channelId], the [channelTitle] and the avatar URL if it is present,
    the empty text standing for an absent one.  The components are compared
    as the keys of a Python dict are, up to [==]. *)
Definition composite_key (video : record) : option (hkey * hkey * hkey) :=
  match dict_get "channelId" video, dict_get "channelTitle" video with
  | Some channel_id, Some channel_title =>
      match hash_key channel_id, hash_key channel_title,
            hash_key (default (JStr "") (dict_get "channelAvatarUrl" video)) with
      | Ok c, Ok t, Ok a => Some (c, t, a)
      | _, _, _ => None
      end
  | _, _ => None
  end.

(** The key under which a group is returned, component by component. *)
Definition key_of_group (g : json * json * json * list record)
  : option (hkey * hkey * hkey) :=
  match hash_key g.1.1.1, hash_key g.1.1.2, hash_key g.1.2 with
  | Ok c, Ok t, Ok a => Some (c, t, a)
  | _, _, _ => None
  end.

(** A group of the partition by composite key: the records of the
    collection that have the key of the group, in the order of the
    collection, and there is at least one. *)
Definition is_channel_group (videos : list record)
    (g : json * json * json * list record) : Prop :=
  ∃ h, key_of_group g = Some h
       ∧ g.2 = filter (fun video => composite_key video = Some h) videos
       ∧ g.2 ≠ [].

(** Two records are in one group. *)
Definition grouped_together (groups : list (json * json * json * list record))
    (r1 r2 : record) : Prop :=
  ∃ g, g ∈ groups ∧ r1 ∈ g.2 ∧ r2 ∈ g.2.

(** A record as the Merger leaves it when it gets to it. *)
Definition merge_record (avatar_urls : gmap hkey json) (r : record) : record :=
  match avatar_of avatar_urls r with
  | Some url => dict_set "channelAvatarUrl" url r
  | None => r
  end.

(** Every avatar of a mapping is truthy. *)
Definition all_truthy (avatar_urls : gmap hkey json) : Prop :=
  map_Forall (fun _ url => truthy url = true) avatar_urls.

(** The exception that the Grouper raises on a record that it cannot key:
    a missing [channelId] or [channelTitle] is a [KeyError], a component
    that cannot be hashed a [TypeError]. *)
Definition key_error (video : record) : exn :=
  if dict_has "channelId" video && dict_has "channelTitle" video
  then TypeError else KeyError.

(** The records that the Renderer can show: the view count, 0 when absent,
    is a number, and the title, when there is one, a string. *)
Definition renderable (video : record) : bool :=
  match dict_get_default "viewCount" (JInt 0) video with
  | JInt _ | JBool _ =>
      match dict_get_default "title" (JStr "Sans titre") video with
      | JStr _ => true
      | _ => false
      end
  | _ => false
  end.

(** * Example data *)

Definition ex_thumbnail (url : string) : json := JObj [("url", JStr url)].

(** An item of a reply of the API. *)
Definition ex_item (id : string) (thumbnails : pydict) : json :=
  JObj [("id", JStr id);
        ("snippet", JObj [("title", JStr ("Channel " +:+ id));
                          ("thumbnails", JObj thumbnails)])].

Definition ex_thumbnails_A : pydict :=
  [("medium", ex_thumbnail "https://img/A/medium");
   ("default", ex_thumbnail "https://img/A/default")].

Definition ex_item_A : json := ex_item "A" ex_thumbnails_A.

Definition ex_video (id channel : string) : record :=
  [("id", JStr id); ("channelId", JStr channel);
   ("channelTitle", JStr ("Channel " +:+ channel)); ("viewCount", JInt 1200)].

(** Two videos of channel A and one of channel B. *)
Definition ex_dataset : list record :=
  [ex_video "v1" "A"; ex_video "v2" "B"; ex_video "v3" "A"].

(** A record without [channelId]. *)
Definition ex_orphan : record := [("id", JStr "v4"); ("title", JStr "Untitled")].

(** 101 channel ids: three chunks. *)
Definition ex_ids : list string := (fun n => "UC" +:+ pretty n) <$> seq 0 101.

(** The API knows channel A only. *)
Definition ex_api_online (n : nat) (req : request) : reply :=
  Body (JObj [("items", JArr [ex_item_A])]).

(** No request gets through. *)
Definition ex_api_offline (n : nat) (req : request) : reply := ConnectionFails.

(** The API knows every channel, and answers the second request with an
    error status. *)
Definition ex_api_flaky (n : nat) (req : request) : reply :=
  if Nat.eqb n 1 then BadStatus
  else Body (JObj [("items",
               JArr ((fun id => ex_item id [("high", ex_thumbnail id)])
                       <$> req_ids req))]).

(** A world where the dataset of the enrichment script is [ex_dataset], the
    dataset of the report script is empty, every write succeeds and the
    console shows every text. *)
Definition ex_world (api : nat → request → reply) : world :=
  World (<[Enrich.DATA_JSON_PATH := FDataset ex_dataset]>
           (<[Report.data_file := FDataset []]> ∅))
    [] (fun _ => Written) api elements "03/11/2026 12:00:00" (fun _ => true).

(** A thumbnail mapping whose [high] entry has an empty URL. *)
Definition ex_thumbnails_empty_high : pydict :=
  [("high", ex_thumbnail ""); ("medium", ex_thumbnail "https://img/C/medium")].

(** The mapping that has an avatar for channel A only. *)
Definition ex_avatars : gmap hkey json :=
  {[KStr "A" := JStr "https://img/A/medium"]}.

(** An item with an id and an empty thumbnail mapping, without title. *)
Definition ex_item_untitled : json :=
  JObj [("id", JStr "B"); ("snippet", JObj [("thumbnails", JObj [])])].

(** A console that shows every text. *)
Definition ex_console_all (v : json) : bool := true.

(** A console whose encoding lacks a character of the text [s]. *)
Definition ex_console_without (s : string) (v : json) : bool :=
  match v with
  | JStr s' => negb (String.eqb s' s)
  | _ => true
  end.

(** Two items with an avatar of high quality. *)
Definition ex_item_C : json :=
  ex_item "C" [("high", ex_thumbnail "https://img/C/high")].

Definition ex_item_D : json :=
  ex_item "D" [("high", ex_thumbnail "https://img/D/high")].

(** The mapping that has an avatar for the channels A and C. *)
Definition ex_avatars_C : gmap hkey json :=
  <[KStr "C" := JStr "https://img/C/high"]> ex_avatars.





(** * Tactics *)

(** A run that ends with status 1, for the reason that [tac] proves. *)
Ltac failing_run tac :=
  cbn [exit_status snd];
  split; [by right|];
  split; [by split|];
  split; [intros _; tac | done].

(** A closed decidable proposition, by evaluation. *)
Ltac by_computation := apply (bool_decide_unpack _); vm_compute; exact I.

(** * Properties *)

(** ** Dicts *)

Lemma dict_get_set_eq k v (d : pydict) : dict_get k (dict_set k v d) = Some v.
Proof.
  induction d as [|[k' v'] d IH]; simpl.
  - by rewrite String.eqb_refl.
  - destruct (String.eqb k' k) eqn:E; simpl; rewrite E; [done | apply IH].
Qed.

Lemma dict_get_set_ne k k' v (d : pydict) :
  k ≠ k' → dict_get k' (dict_set k v d) = dict_get k' d.
Proof.
  intros Hne. induction d as [|[k0 v0] d IH]; simpl.
  - destruct (String.eqb k k') eqn:E; [|done].
    apply String.eqb_eq in E. congruence.
  - destruct (String.eqb k0 k) eqn:E; simpl.
    + apply String.eqb_eq in E. subst k0.
      destruct (String.eqb k k') eqn:E'; [|done].
      apply String.eqb_eq in E'. congruence.
    + by rewrite IH.
Qed.

Lemma dict_set_set k v v' (d : pydict) :
  dict_set k v (dict_set k v' d) = dict_set k v d.
Proof.
  induction d as [|[k0 v0] d IH]; simpl.
  - by rewrite String.eqb_refl.
  - destruct (String.eqb k0 k) eqn:E; simpl; rewrite E; [done | by rewrite IH].
Qed.

Lemma dict_has_set_ne k k' v (d : pydict) :
  k ≠ k' → dict_has k' (dict_set k v d) = dict_has k' d.
Proof. intros Hne. unfold dict_has. by rewrite dict_get_set_ne. Qed.

Lemma dict_has_true k (d : pydict) :
  dict_has k d = true ↔ is_Some (dict_get k d).
Proof.
  unfold dict_has. rewrite is_Some_alt. by destruct (dict_get k d).
Qed.

(** ** Ranges and slices *)

Lemma range_from_concat {A} (l : list A) fuel i :
  length l - i ≤ fuel →
  concat (map (fun j => py_slice l j (j + 50)) (range_from fuel i (length l) 50))
  = drop i l.
Proof.
  revert i. induction fuel as [|fuel IH]; intros i Hfuel; simpl.
  - rewrite drop_ge; [done | lia].
  - destruct (Nat.ltb_spec i (length l)) as [Hlt|Hge]; simpl.
    + rewrite IH by lia. unfold py_slice.
      replace (i + 50 - i) with 50 by lia.
      rewrite <- (take_drop 50 (drop i l)) at 2.
      by rewrite drop_drop.
    + rewrite drop_ge; [done | lia].
Qed.

Lemma range_from_length fuel i stop :
  stop - i ≤ fuel → length (range_from fuel i stop 50) = (stop - i + 49) / 50.
Proof.
  revert i. induction fuel as [|fuel IH]; intros i Hfuel; cbn [range_from].
  - replace (stop - i) with 0 by lia. done.
  - destruct (Nat.ltb_spec i stop) as [Hlt|Hge]; cbn [length].
    + rewrite IH by lia.
      destruct (decide (stop - i < 50)) as [Hs|Hs].
      * replace (stop - (i + 50)) with 0 by lia.
        change ((0 + 49) / 50) with 0.
        apply Nat.div_unique with (r := stop - i - 1); lia.
      * replace (stop - i + 49) with (stop - (i + 50) + 49 + 1 * 50) by lia.
        rewrite Nat.div_add by lia. lia.
    + replace (stop - i) with 0 by lia. done.
Qed.

Lemma range_from_bound fuel i stop :
  Forall (fun j => j < stop) (range_from fuel i stop 50).
Proof.
  revert i. induction fuel as [|fuel IH]; intros i; simpl; [constructor|].
  destruct (Nat.ltb_spec i stop); [|constructor].
  constructor; [done | apply IH].
Qed.

Lemma py_slice_fmap {A B} (f : A → B) (l : list A) i j :
  py_slice (f <$> l) i j = f <$> py_slice l i j.
Proof. unfold py_slice. by rewrite fmap_take, fmap_drop. Qed.

Lemma py_slice_length {A} (l : list A) i :
  i < length l →
  1 ≤ length (py_slice l i (i + 50)) ∧ length (py_slice l i (i + 50)) ≤ 50.
Proof.
  intros Hi. unfold py_slice. rewrite length_take, length_drop. lia.
Qed.

(** ** The Batch Fetcher *)

Section fetcher.

Variable key : string.

Lemma log_requests_nil w : log_requests [] w = w.
Proof. destruct w. unfold log_requests. simpl. by rewrite app_nil_r. Qed.

Lemma log_requests_cons r rs w :
  log_requests rs (log_request r w) = log_requests (r :: rs) w.
Proof. unfold log_requests, log_request. simpl. by rewrite <- app_assoc. Qed.

Lemma str_join_fmap (l : list string) : Enrich.str_join (KStr <$> l) = Ok l.
Proof.
  induction l as [|s l IH]; [done|].
  rewrite fmap_cons. cbn [Enrich.str_join]. by rewrite IH.
Qed.

(** The body of the loop over the items leaves the dict as it was or with
    one entry more, a truthy avatar under the id of the item; it leaves it
    as it was unless it got as far as the [print]. *)
Lemma process_item_cases console m item :
  (∃ r, Enrich.process_item console m item = (m, r))
  ∨ (∃ cid title url k,
       Enrich.read_item item = Ok (cid, title, url)
       ∧ truthy url = true ∧ hash_key cid = Ok k
       ∧ Enrich.process_item console m item
         = (<[k := url]> m, print_values console [title; url])).
Proof.
  unfold Enrich.process_item.
  destruct (Enrich.read_item item) as [[[cid title] url]|e]; [|by left; eexists].
  destruct (truthy url) eqn:Hurl; [|by left; eexists].
  destruct (hash_key cid) as [k|e] eqn:Hk; [|by left; eexists].
  right. by exists cid, title, url, k.
Qed.

Lemma process_item_dom console m item :
  dom m ⊆ dom (Enrich.process_item console m item).1.
Proof.
  destruct (process_item_cases console m item)
    as [[r ->]|(cid & title & url & k & _ & _ & _ & ->)]; [done|].
  cbn [fst]. rewrite dom_insert. apply union_subseteq_r.
Qed.

Lemma process_items_dom console items m :
  dom m ⊆ dom (Enrich.process_items console items m).1.
Proof.
  revert m. induction items as [|item items IH]; intros m; simpl; [done|].
  pose proof (process_item_dom console m item) as Hitem.
  destruct (Enrich.process_item console m item) as [m' [[]|e]]; simpl in *.
  - by etrans.
  - done.
Qed.

Lemma handle_data_dom console data batch m :
  dom m ⊆ dom (Enrich.handle_data console data batch m).1.
Proof.
  unfold Enrich.handle_data.
  destruct (py_contains "items" data) as [[]|]; simpl; [|done|done].
  destruct (py_getitem data "items" ≫= py_iter) as [items|]; simpl; [|done].
  pose proof (process_items_dom console items m) as H.
  by destruct (Enrich.process_items console items m) as [m' []].
Qed.

Lemma after_response_dom console response batch m :
  dom m ⊆ dom (Enrich.after_response console response batch m).
Proof. destruct response; simpl; try done. apply handle_data_dom. Qed.

(** On a batch of strings a turn of the loop sends its request and goes on,
    whatever the reply. *)
Lemma fetch_batch_str (batch : list string) m w :
  Enrich.fetch_batch key (KStr <$> batch) m w =
  (log_request (Request batch key) w,
   Ok (Enrich.after_response (stdout_encodes w)
         (api w (length (sent w)) (Request batch key)) (KStr <$> batch) m)).
Proof.
  unfold Enrich.fetch_batch, mbind, io_bind, lift.
  by rewrite str_join_fmap.
Qed.

Lemma fetch_loop_str starts (ids : list string) m w :
  ∃ m', Enrich.fetch_loop key starts (KStr <$> ids) m w =
          (log_requests (chunk_requests key ids starts) w, Ok m')
        ∧ dom m ⊆ dom m'.
Proof.
  revert m w. induction starts as [|i starts IH]; intros m w.
  - exists m. by rewrite log_requests_nil.
  - cbn [Enrich.fetch_loop]. unfold mbind, io_bind.
    change Enrich.batch_size with 50.
    rewrite py_slice_fmap, fetch_batch_str.
    destruct (IH (Enrich.after_response (stdout_encodes w)
                    (api w (length (sent w))
                       (Request (py_slice ids i (i + 50)) key))
                    (KStr <$> py_slice ids i (i + 50)) m)
                 (log_request (Request (py_slice ids i (i + 50)) key) w))
      as (m' & -> & Hdom).
    exists m'. split.
    + by rewrite log_requests_cons.
    + etrans; [apply after_response_dom | exact Hdom].
Qed.

Lemma log_requests_app rs1 rs2 w :
  log_requests rs2 (log_requests rs1 w) = log_requests (rs1 ++ rs2) w.
Proof. unfold log_requests. simpl. by rewrite app_assoc. Qed.

Lemma fetch_loop_app s1 s2 ids m w :
  Enrich.fetch_loop key (s1 ++ s2) ids m w =
  match Enrich.fetch_loop key s1 ids m w with
  | (w1, Ok m1) => Enrich.fetch_loop key s2 ids m1 w1
  | (w1, Raise e) => (w1, Raise e)
  end.
Proof.
  revert m w. induction s1 as [|i s1 IH]; intros m w; [done|].
  cbn [app Enrich.fetch_loop]. unfold mbind, io_bind.
  destruct (Enrich.fetch_batch key _ m w) as [w' [m'|e]]; [apply IH | done].
Qed.

End fetcher.

(** C1. With the API key configured, on a list of [N] distinct channel ids
    the Batch Fetcher returns after sending exactly [ceil(N / 50)] requests;
    every request carries between 1 and 50 ids; the ids of the requests,
    taken in order, are the input list, so that no id is sent twice and an
    id is sent if and only if it is in the input. *)
Theorem fetch_sends_every_id_once key (ids : list string) w :
  Enrich.key_configured key = true →
  NoDup ids →
  ∃ w' avatar_urls reqs,
    Enrich.fetch_channel_avatars_batch key (KStr <$> ids) w = (w', Ok avatar_urls)
    ∧ sent w' = sent w ++ reqs
    ∧ length reqs = (length ids + 49) / 50
    ∧ Forall (fun r => 1 ≤ length (req_ids r) ∧ length (req_ids r) ≤ 50) reqs
    ∧ concat (req_ids <$> reqs) = ids
    ∧ NoDup (concat (req_ids <$> reqs))
    ∧ ∀ id, id ∈ ids ↔ ∃ r, r ∈ reqs ∧ id ∈ req_ids r.
Proof.
  intros Hkey Hnodup. unfold Enrich.fetch_channel_avatars_batch.
  rewrite Hkey, length_fmap. change Enrich.batch_size with 50.
  destruct (fetch_loop_str key (py_range 0 (length ids) 50) ids ∅ w)
    as (m' & Hrun & _).
  set (reqs := chunk_requests key ids (py_range 0 (length ids) 50)) in *.
  assert (Hcat : concat (req_ids <$> reqs) = ids).
  { unfold reqs, chunk_requests. rewrite <- list_fmap_compose.
    unfold py_range. etrans; [apply range_from_concat; lia | apply drop_0]. }
  exists (log_requests reqs w), m', reqs. split_and!.
  - exact Hrun.
  - done.
  - unfold reqs, chunk_requests, py_range.
    rewrite length_map, range_from_length by lia. f_equal. lia.
  - unfold reqs, chunk_requests, py_range. apply Forall_fmap.
    eapply Forall_impl; [apply range_from_bound|].
    intros i Hi. simpl. by apply py_slice_length.
  - exact Hcat.
  - by rewrite Hcat.
  - intros id. rewrite <- Hcat at 1. rewrite list_elem_of_In, in_concat. split.
    + intros (l & Hl & Hid).
      apply list_elem_of_In, list_elem_of_fmap in Hl as (r & -> & Hr).
      exists r. split; [done | by apply list_elem_of_In].
    + intros (r & Hr & Hid). exists (req_ids r). split.
      * apply list_elem_of_In, list_elem_of_fmap. eauto.
      * by apply list_elem_of_In.
Qed.

(** C6. Take any chunk of a fetch (key configured, ids that are strings),
    and any reply to its request.  Nothing that happens to the chunk ends
    the fetch: it returns normally, having sent the requests of all the
    chunks, the later ones included, and its result is what the remaining
    chunks give from the mapping that the chunk leaves.  When the request
    gets no body (a network error, an error status, a body that is not
    JSON) the chunk leaves the mapping exactly as the chunks before made it;
    in every case the channels resolved before the chunk are keys of the
    mapping that the chunk leaves and of the result. *)
Theorem fetch_survives_failed_chunk key (ids : list string) s1 i s2 w :
  Enrich.key_configured key = true →
  py_range 0 (length ids) 50 = s1 ++ i :: s2 →
  ∃ m1 m2,
    Enrich.fetch_loop key s1 (KStr <$> ids) ∅ w =
      (log_requests (chunk_requests key ids s1) w, Ok m1)
    ∧ Enrich.fetch_channel_avatars_batch key (KStr <$> ids) w =
      (log_requests (chunk_requests key ids (s1 ++ i :: s2)) w, Ok m2)
    ∧ Enrich.fetch_loop key s2 (KStr <$> ids)
        (chunk_leaves key ids s1 i w m1)
        (log_requests (chunk_requests key ids (s1 ++ [i])) w) =
      (log_requests (chunk_requests key ids (s1 ++ i :: s2)) w, Ok m2)
    ∧ match chunk_reply key ids s1 i w with
      | Body _ => True
      | ConnectionFails | BadStatus | BadBody =>
          chunk_leaves key ids s1 i w m1 = m1
      end
    ∧ dom m1 ⊆ dom (chunk_leaves key ids s1 i w m1)
    ∧ dom m1 ⊆ dom m2.
Proof.
  intros Hkey Hrange.
  destruct (fetch_loop_str key s1 ids ∅ w) as (m1 & Hs1 & _).
  set (w1 := log_requests (chunk_requests key ids s1) w) in *.
  set (req := Request (py_slice ids i (i + 50)) key) in *.
  assert (Hw1 : length (sent w1) = length (sent w) + length s1).
  { unfold w1, log_requests, chunk_requests. simpl.
    by rewrite length_app, length_map. }
  assert (Hi : Enrich.fetch_batch key (KStr <$> py_slice ids i (i + 50)) m1 w1
               = (log_request req w1, Ok (chunk_leaves key ids s1 i w m1))).
  { rewrite fetch_batch_str. fold req. by rewrite Hw1. }
  destruct (fetch_loop_str key s2 ids (chunk_leaves key ids s1 i w m1)
              (log_request req w1)) as (m2 & Hs2 & Hdom).
  assert (Hw2 : log_requests (chunk_requests key ids s2) (log_request req w1)
                = log_requests (chunk_requests key ids (s1 ++ i :: s2)) w).
  { unfold w1. rewrite log_requests_cons, log_requests_app.
    unfold chunk_requests. by rewrite map_app. }
  assert (Hw1' : log_request req w1
                 = log_requests (chunk_requests key ids (s1 ++ [i])) w).
  { unfold w1. rewrite <- (log_requests_nil (log_request req _)).
    rewrite log_requests_cons, log_requests_app.
    unfold chunk_requests. by rewrite map_app. }
  assert (Hmid : dom m1 ⊆ dom (chunk_leaves key ids s1 i w m1))
    by apply after_response_dom.
  exists m1, m2. split_and!.
  - exact Hs1.
  - unfold Enrich.fetch_channel_avatars_batch.
    rewrite Hkey, length_fmap. change Enrich.batch_size with 50.
    rewrite Hrange, fetch_loop_app, Hs1.
    cbn [Enrich.fetch_loop]. unfold mbind at 1, io_bind at 1.
    change Enrich.batch_size with 50. rewrite py_slice_fmap, Hi.
    by rewrite Hs2, Hw2.
  - by rewrite <- Hw1', Hs2, Hw2.
  - unfold chunk_leaves. by destruct (chunk_reply key ids s1 i w).
  - exact Hmid.
  - by etrans.
Qed.

(** ** Avatar selection *)

Lemma pick_quality_present quality qs (thumbnails : pydict) thumbnail :
  dict_get quality thumbnails = Some thumbnail →
  Enrich.pick_quality (quality :: qs) (JObj thumbnails)
  = py_getitem thumbnail "url".
Proof.
  intros H. cbn [Enrich.pick_quality py_contains py_getitem].
  unfold dict_has, dict_item. rewrite H. done.
Qed.

Lemma pick_quality_absent quality qs (thumbnails : pydict) :
  dict_has quality thumbnails = false →
  Enrich.pick_quality (quality :: qs) (JObj thumbnails)
  = Enrich.pick_quality qs (JObj thumbnails).
Proof. intros H. cbn [Enrich.pick_quality py_contains]. by rewrite H. Qed.

Lemma read_item_titled item cid snippet title thumbnails :
  py_getitem item "id" = Ok cid →
  py_getitem item "snippet" = Ok snippet →
  py_getitem snippet "title" = Ok title →
  py_getitem snippet "thumbnails" = Ok thumbnails →
  Enrich.read_item item =
  (avatar_url ← Enrich.select_avatar thumbnails; Ok (cid, title, avatar_url)).
Proof.
  intros Hid Hsn Htitle Hth. unfold Enrich.read_item.
  rewrite Hid, Hsn. simpl. rewrite Htitle, Hth. done.
Qed.

Lemma print_values_shown console v vs :
  console v = true →
  print_values console (v :: vs) = print_values console vs.
Proof. intros H. unfold print_values. cbn [forallb]. by rewrite H. Qed.

(** C2, as amended.  For a returned item that has an id, a title that the
    console can print and a thumbnail-quality mapping, the selected avatar
    is the [url] of the first of [high], [medium], [default] that is a key
    of the mapping, and a truthy URL is recorded under the id of the
    channel; when none of the three is a key, nothing is selected, the item
    raises nothing and the result mapping is left as it is.  In particular
    a mapping without [high] and with [medium] selects [medium], whether or
    not [default] is there. *)
Theorem avatar_selection_policy console item cid snippet title
    (thumbnails : pydict) m :
  py_getitem item "id" = Ok cid →
  py_getitem item "snippet" = Ok snippet →
  py_getitem snippet "title" = Ok title →
  console title = true →
  py_getitem snippet "thumbnails" = Ok (JObj thumbnails) →
  match first_present thumbnails with
  | Some quality =>
      ∃ thumbnail,
        dict_get quality thumbnails = Some thumbnail
        ∧ Enrich.select_avatar (JObj thumbnails) = py_getitem thumbnail "url"
        ∧ Enrich.process_item console m item =
            match py_getitem thumbnail "url" with
            | Raise e => (m, Raise e)
            | Ok url =>
                if truthy url then
                  match hash_key cid with
                  | Raise e => (m, Raise e)
                  | Ok k => (<[k := url]> m, print_values console [url])
                  end
                else (m, Ok ())
            end
  | None =>
      Enrich.select_avatar (JObj thumbnails) = Ok JNull
      ∧ Enrich.process_item console m item = (m, Ok ())
  end
  ∧ (dict_has "high" thumbnails = false →
     dict_has "medium" thumbnails = true →
     first_present thumbnails = Some "medium").
Proof.
  intros Hid Hsn Htitle Hshown Hth. split.
  - assert (Hitem : Enrich.process_item console m item =
              match Enrich.select_avatar (JObj thumbnails) with
              | Raise e => (m, Raise e)
              | Ok url =>
                  if truthy url then
                    match hash_key cid with
                    | Raise e => (m, Raise e)
                    | Ok k => (<[k := url]> m, print_values console [url])
                    end
                  else (m, Ok ())
              end).
    { unfold Enrich.process_item.
      rewrite (read_item_titled _ _ _ _ _ Hid Hsn Htitle Hth).
      destruct (Enrich.select_avatar (JObj thumbnails)) as [url|e]; [|done].
      simpl. rewrite !(print_values_shown _ _ _ Hshown). done. }
    unfold first_present, Enrich.select_avatar, Enrich.qualities in *.
    cbn [List.find].
    destruct (dict_has "high" thumbnails) eqn:Hh.
    { apply dict_has_true in Hh as [t Ht]. exists t.
      rewrite Hitem, (pick_quality_present _ _ _ _ Ht). done. }
    rewrite (pick_quality_absent _ _ _ Hh) in *.
    destruct (dict_has "medium" thumbnails) eqn:Hm.
    { apply dict_has_true in Hm as [t Ht]. exists t.
      rewrite Hitem, (pick_quality_present _ _ _ _ Ht). done. }
    rewrite (pick_quality_absent _ _ _ Hm) in *.
    destruct (dict_has "default" thumbnails) eqn:Hd.
    { apply dict_has_true in Hd as [t Ht]. exists t.
      rewrite Hitem, (pick_quality_present _ _ _ _ Ht). done. }
    rewrite (pick_quality_absent _ _ _ Hd) in *.
    by rewrite Hitem.
  - intros Hh Hm. unfold first_present. cbn [List.find]. by rewrite Hh, Hm.
Qed.

(** ** The Merger *)

Section merger.

Variable avatar_urls : gmap hkey json.

Lemma enrich_item_cases item :
  match Enrich.enrich_item avatar_urls item with
  | Ok (item', n) =>
      match avatar_of avatar_urls item with
      | Some url => item' = dict_set "channelAvatarUrl" url item ∧ n = 1
      | None => item' = item ∧ n = 0
      end
  | Raise _ => avatar_of avatar_urls item = None
  end.
Proof.
  unfold Enrich.enrich_item, avatar_of, dict_has, dict_item.
  destruct (dict_get "channelId" item) as [v|]; [|done]. simpl.
  destruct (hash_key v) as [k|]; [|done]. simpl.
  by destruct (avatar_urls !! k).
Qed.

Lemma avatar_of_set url url' item :
  avatar_of avatar_urls (dict_set "channelAvatarUrl" url' item) = Some url →
  avatar_of avatar_urls item = Some url.
Proof. unfold avatar_of. by rewrite dict_get_set_ne. Qed.

Lemma enrich_item_frame item item' n :
  Enrich.enrich_item avatar_urls item = Ok (item', n) →
  merger_frame avatar_urls item item'.
Proof.
  intros H. pose proof (enrich_item_cases item) as Hc. rewrite H in Hc.
  unfold merger_frame. destruct (avatar_of avatar_urls item) as [url|].
  - destruct Hc as [-> _]. split_and!.
    + done.
    + right. by exists url.
    + intros field Hne. by apply dict_get_set_ne.
    + by apply dict_get_set_ne.
  - destruct Hc as [-> _]. split_and!; auto.
Qed.

Lemma merger_frame_refl item : merger_frame avatar_urls item item.
Proof. unfold merger_frame. split_and!; auto. Qed.

Lemma enrich_loop_frame data count :
  Forall2 (merger_frame avatar_urls) data
    (Enrich.enrich_loop avatar_urls data count).1.
Proof.
  revert count. induction data as [|item data IH]; intros count; simpl.
  - constructor.
  - destruct (Enrich.enrich_item avatar_urls item) as [[item' n]|e] eqn:E.
    + specialize (IH (count + n)).
      destruct (Enrich.enrich_loop avatar_urls data (count + n)) as [rest' r].
      constructor; [by eapply enrich_item_frame | exact IH].
    + simpl. apply Forall2_same_length_lookup_2; [done|].
      intros i x y Hx Hy. rewrite Hx in Hy. injection Hy as <-.
      apply merger_frame_refl.
Qed.

Lemma enrich_item_again item item' n :
  Enrich.enrich_item avatar_urls item = Ok (item', n) →
  Enrich.enrich_item avatar_urls item' = Ok (item', n).
Proof.
  intros H. pose proof (enrich_item_cases item) as Hc. rewrite H in Hc.
  destruct (avatar_of avatar_urls item) as [url|] eqn:Hav.
  - destruct Hc as [-> ->].
    unfold avatar_of in Hav. unfold Enrich.enrich_item, dict_has, dict_item.
    rewrite dict_get_set_ne by done.
    destruct (dict_get "channelId" item) as [v|]; [|done]. simpl.
    destruct (hash_key v) as [k|]; [|done]. simpl.
    by rewrite Hav, dict_set_set.
  - by destruct Hc as [-> ->].
Qed.

Lemma enrich_loop_again data count :
  Enrich.enrich_loop avatar_urls
    (Enrich.enrich_loop avatar_urls data count).1 count
  = Enrich.enrich_loop avatar_urls data count.
Proof.
  revert count. induction data as [|item data IH]; intros count; [done|].
  cbn [Enrich.enrich_loop].
  destruct (Enrich.enrich_item avatar_urls item) as [[item' n]|e] eqn:E.
  - specialize (IH (count + n)).
    destruct (Enrich.enrich_loop avatar_urls data (count + n)) as [rest' r].
    cbn [fst Enrich.enrich_loop]. rewrite (enrich_item_again _ _ _ E).
    simpl in IH. by rewrite IH.
  - cbn [fst Enrich.enrich_loop]. by rewrite E.
Qed.

Lemma enrich_loop_length data count :
  length (Enrich.enrich_loop avatar_urls data count).1 = length data.
Proof. symmetry. eapply Forall2_length, enrich_loop_frame. Qed.

Lemma enrich_loop_skip d1 r d2 count :
  dict_has "channelId" r = false →
  Enrich.enrich_loop avatar_urls (d1 ++ r :: d2) count =
  (take (length d1) (Enrich.enrich_loop avatar_urls (d1 ++ d2) count).1
     ++ r :: drop (length d1) (Enrich.enrich_loop avatar_urls (d1 ++ d2) count).1,
   (Enrich.enrich_loop avatar_urls (d1 ++ d2) count).2).
Proof.
  intros Hr. revert count. induction d1 as [|item d1 IH]; intros count.
  - cbn [app length take drop Enrich.enrich_loop].
    unfold Enrich.enrich_item at 1. rewrite Hr, Nat.add_0_r.
    by destruct (Enrich.enrich_loop avatar_urls d2 count).
  - cbn [app length Enrich.enrich_loop].
    destruct (Enrich.enrich_item avatar_urls item) as [[item' n]|e].
    + rewrite IH.
      by destruct (Enrich.enrich_loop avatar_urls (d1 ++ d2) (count + n)).
    + cbn [fst snd take drop]. by rewrite take_app_length, drop_app_length.
Qed.

(** When the loop ends, every record whose channel has an avatar in the
    mapping has got it, and the count is the number of these records. *)
Lemma enrich_loop_complete data count n :
  (Enrich.enrich_loop avatar_urls data count).2 = Ok n →
  Forall2 (fun r r' =>
             match avatar_of avatar_urls r with
             | Some url => r' = dict_set "channelAvatarUrl" url r
             | None => r' = r
             end) data (Enrich.enrich_loop avatar_urls data count).1
  ∧ n = count + length (filter (fun r => is_Some (avatar_of avatar_urls r)) data).
Proof.
  revert count. induction data as [|item data IH]; intros count.
  - simpl. intros [= <-]. split; [apply Forall2_nil_2 | lia].
  - cbn [Enrich.enrich_loop].
    pose proof (enrich_item_cases item) as Hc.
    destruct (Enrich.enrich_item avatar_urls item) as [[item' k]|e]; [|done].
    specialize (IH (count + k)).
    destruct (Enrich.enrich_loop avatar_urls data (count + k)) as [rest' r].
    cbn [fst snd] in *. intros ->. destruct (IH eq_refl) as [Hall ->].
    destruct (avatar_of avatar_urls item) as [url|] eqn:Hav;
      destruct Hc as [-> ->].
    + split; [constructor; [by rewrite Hav | done]|].
      rewrite filter_cons_True by (by rewrite Hav). simpl. lia.
    + split; [constructor; [by rewrite Hav | done]|].
      rewrite filter_cons_False by (rewrite Hav; by intros [? ?]). lia.
Qed.

End merger.

Lemma extract_loop_skip d1 r d2 channel_ids :
  dict_has "channelId" r = false →
  Enrich.extract_loop (d1 ++ r :: d2) channel_ids
  = Enrich.extract_loop (d1 ++ d2) channel_ids.
Proof.
  intros Hr. revert channel_ids.
  induction d1 as [|item d1 IH]; intros channel_ids.
  - cbn [app Enrich.extract_loop]. by rewrite Hr.
  - cbn [app Enrich.extract_loop]. destruct (dict_has "channelId" item); [|apply IH].
    destruct (dict_item "channelId" item) as [v|]; [|done]. simpl.
    destruct (hash_key v) as [k|]; [|done]. simpl. apply IH.
Qed.

(** C4. Whatever the collection and the mapping, and whether the Merger
    returns or raises, each record of the collection is afterwards either as
    it was or as it was with [channelAvatarUrl] set to the avatar of its
    channel: a record whose [channelId] is not a key of the mapping is as it
    was, and every field other than [channelAvatarUrl], [channelId] among
    them, keeps its value.  When the Merger returns, it returns that
    collection. *)
Theorem merger_changes_only_avatar_field data avatar_urls :
  Forall2 (merger_frame avatar_urls) data
    (Enrich.enrich_data_with_avatars data avatar_urls).1
  ∧ match (Enrich.enrich_data_with_avatars data avatar_urls).2 with
    | Ok data' => data' = (Enrich.enrich_data_with_avatars data avatar_urls).1
    | Raise e => e = TypeError
    end.
Proof.
  unfold Enrich.enrich_data_with_avatars.
  pose proof (enrich_loop_frame avatar_urls data 0) as H.
  destruct (Enrich.enrich_loop avatar_urls data 0) as [data' [n|e]] eqn:E.
  - done.
  - split; [done|]. simpl.
    clear H. revert data' E. generalize 0.
    induction data as [|item data IH]; intros count data' E; [done|].
    cbn [Enrich.enrich_loop] in E.
    destruct (Enrich.enrich_item avatar_urls item) as [[item' n]|e'] eqn:Ei.
    + destruct (Enrich.enrich_loop avatar_urls data (count + n))
        as [rest' r] eqn:Er.
      injection E as _ ->. by eapply IH.
    + injection E as _ <-. clear IH.
      unfold Enrich.enrich_item, dict_has, dict_item in Ei.
      destruct (dict_get "channelId" item) as [v|]; [|done]. simpl in Ei.
      destruct v; simpl in Ei; try by destruct (avatar_urls !! _).
      all: by injection Ei as <-.
Qed.

(** C5. Merging twice with the same mapping gives what merging once gives:
    run on the collection that a first run has left, the Merger leaves it as
    it is and ends as the first run did. *)
Theorem merger_idempotent data avatar_urls :
  Enrich.enrich_data_with_avatars
    (Enrich.enrich_data_with_avatars data avatar_urls).1 avatar_urls
  = Enrich.enrich_data_with_avatars data avatar_urls.
Proof.
  unfold Enrich.enrich_data_with_avatars.
  pose proof (enrich_loop_again avatar_urls data 0) as H.
  destruct (Enrich.enrich_loop avatar_urls data 0) as [data' r].
  simpl in *. by rewrite H.
Qed.

(** C9. A record without the key [channelId] is tolerated.  The
    Deduplicator collects from a collection that has such a record what it
    collects without it.  The Merger leaves the record as it is and does not
    count it: the collection afterwards is the one obtained without the
    record, with the record put back unchanged at its place, and the count
    of enriched records, or the exception, is the same. *)
Theorem record_without_channel_id_is_skipped d1 r d2 avatar_urls :
  dict_has "channelId" r = false →
  Enrich.extract_unique_channel_ids (d1 ++ r :: d2)
  = Enrich.extract_unique_channel_ids (d1 ++ d2)
  ∧ Enrich.enrich_item avatar_urls r = Ok (r, 0)
  ∧ (Enrich.enrich_data_with_avatars (d1 ++ r :: d2) avatar_urls).1 =
      take (length d1) (Enrich.enrich_data_with_avatars (d1 ++ d2) avatar_urls).1
      ++ r :: drop (length d1)
                (Enrich.enrich_data_with_avatars (d1 ++ d2) avatar_urls).1
  ∧ (Enrich.enrich_data_with_avatars (d1 ++ r :: d2) avatar_urls).1 !! length d1
    = Some r
  ∧ (Enrich.enrich_loop avatar_urls (d1 ++ r :: d2) 0).2
    = (Enrich.enrich_loop avatar_urls (d1 ++ d2) 0).2.
Proof.
  intros Hr.
  assert (Hstate : (Enrich.enrich_data_with_avatars (d1 ++ r :: d2) avatar_urls).1 =
      take (length d1) (Enrich.enrich_data_with_avatars (d1 ++ d2) avatar_urls).1
      ++ r :: drop (length d1)
                (Enrich.enrich_data_with_avatars (d1 ++ d2) avatar_urls).1).
  { unfold Enrich.enrich_data_with_avatars.
    rewrite (enrich_loop_skip avatar_urls d1 r d2 0 Hr).
    by destruct (Enrich.enrich_loop avatar_urls (d1 ++ d2) 0). }
  split_and!.
  - by apply extract_loop_skip.
  - unfold Enrich.enrich_item. by rewrite Hr.
  - exact Hstate.
  - rewrite Hstate. rewrite lookup_app_r; rewrite length_take.
    + replace (length d1 - _) with 0; [done|].
      unfold Enrich.enrich_data_with_avatars.
      pose proof (enrich_loop_length avatar_urls (d1 ++ d2) 0) as Hlen.
      destruct (Enrich.enrich_loop avatar_urls (d1 ++ d2) 0). simpl in *.
      rewrite Hlen, length_app. lia.
    + lia.
  - by rewrite (enrich_loop_skip avatar_urls d1 r d2 0 Hr).
Qed.

(** ** The whole run *)

Section run.

Variable key : string.

Lemma fetch_batch_set_disk D batch m w :
  Enrich.fetch_batch key batch m (set_disk D w) =
  (set_disk D (Enrich.fetch_batch key batch m w).1,
   (Enrich.fetch_batch key batch m w).2).
Proof.
  unfold Enrich.fetch_batch, mbind, io_bind, lift.
  by destruct (Enrich.str_join batch).
Qed.

Lemma fetch_loop_set_disk D starts ids m w :
  Enrich.fetch_loop key starts ids m (set_disk D w) =
  (set_disk D (Enrich.fetch_loop key starts ids m w).1,
   (Enrich.fetch_loop key starts ids m w).2).
Proof.
  revert m w. induction starts as [|i starts IH]; intros m w; [done|].
  cbn [Enrich.fetch_loop]. unfold mbind, io_bind.
  rewrite fetch_batch_set_disk.
  destruct (Enrich.fetch_batch key _ m w) as [w' [m'|e]]; [apply IH | done].
Qed.

Lemma fetch_set_disk D ids w :
  Enrich.fetch_channel_avatars_batch key ids (set_disk D w) =
  (set_disk D (Enrich.fetch_channel_avatars_batch key ids w).1,
   (Enrich.fetch_channel_avatars_batch key ids w).2).
Proof.
  unfold Enrich.fetch_channel_avatars_batch.
  destruct (Enrich.key_configured key); [apply fetch_loop_set_disk | done].
Qed.

Lemma fetch_batch_files batch m w :
  disk (Enrich.fetch_batch key batch m w).1 = disk w
  ∧ write_outcome (Enrich.fetch_batch key batch m w).1 = write_outcome w.
Proof.
  unfold Enrich.fetch_batch, mbind, io_bind, lift.
  by destruct (Enrich.str_join batch).
Qed.

Lemma fetch_loop_files starts ids m w :
  disk (Enrich.fetch_loop key starts ids m w).1 = disk w
  ∧ write_outcome (Enrich.fetch_loop key starts ids m w).1 = write_outcome w.
Proof.
  revert m w. induction starts as [|i starts IH]; intros m w; [done|].
  cbn [Enrich.fetch_loop]. unfold mbind, io_bind.
  pose proof (fetch_batch_files (py_slice ids i (i + Enrich.batch_size)) m w)
    as [Hd Hw].
  destruct (Enrich.fetch_batch key _ m w) as [w' [m'|e]]; simpl in *.
  - destruct (IH m' w') as [Hd' Hw']. split; congruence.
  - done.
Qed.

Lemma fetch_files ids w :
  disk (Enrich.fetch_channel_avatars_batch key ids w).1 = disk w
  ∧ write_outcome (Enrich.fetch_channel_avatars_batch key ids w).1
    = write_outcome w.
Proof.
  unfold Enrich.fetch_channel_avatars_batch.
  destruct (Enrich.key_configured key); [apply fetch_loop_files | done].
Qed.

End run.

Lemma main_result key w :
  (Enrich.main key w).2 =
  match loads w with
  | None => Raise (SystemExit 1)
  | Some d =>
      match write_outcome w Enrich.BACKUP_PATH with
      | Written =>
          match Enrich.extract_unique_channel_ids d with
          | Raise e => Raise e
          | Ok channel_ids =>
              if bool_decide (channel_ids = ∅) then Raise (SystemExit 1) else
              match (Enrich.fetch_channel_avatars_batch key
                       (set_order w channel_ids) w).2 with
              | Raise e => Raise e
              | Ok avatar_urls =>
                  if bool_decide (avatar_urls = ∅) then Raise (SystemExit 1) else
                  match (Enrich.enrich_data_with_avatars d avatar_urls).2 with
                  | Raise e => Raise e
                  | Ok _ =>
                      match write_outcome w Enrich.DATA_JSON_PATH with
                      | Written => Ok ()
                      | _ => Raise (SystemExit 1)
                      end
                  end
              end
          end
      | _ => Raise (SystemExit 1)
      end
  end.
Proof.
  unfold Enrich.main, loads, Enrich.load_json_data, try_except, read_json.
  unfold mbind at 1, io_bind at 1.
  destruct (disk w !! Enrich.DATA_JSON_PATH) as [[d| |]|]; try done.
  unfold mbind at 1, io_bind at 1.
  unfold Enrich.save_json_data at 1, try_except, write_file.
  destruct (write_outcome w Enrich.BACKUP_PATH) eqn:Hb; try done.
  unfold mbind at 1, io_bind at 1, lift.
  destruct (Enrich.extract_unique_channel_ids d) as [channel_ids|]; [|done].
  case_bool_decide; [done|].
  unfold mbind at 1, io_bind at 1, ask. cbn [set_order set_disk].
  unfold mbind at 1, io_bind at 1.
  rewrite fetch_set_disk.
  pose proof (fetch_files key (set_order w channel_ids) w) as [_ Hw].
  destruct (Enrich.fetch_channel_avatars_batch key (set_order w channel_ids) w)
    as [w' [avatar_urls|e]]; [|done].
  cbn [fst snd] in *. case_bool_decide; [done|].
  unfold mbind at 1, io_bind at 1, lift.
  destruct (Enrich.enrich_data_with_avatars d avatar_urls) as [s [data'|e]];
    [|done].
  cbn [snd]. unfold Enrich.save_json_data, try_except, write_file.
  cbn [write_outcome set_disk]. rewrite Hw.
  by destruct (write_outcome w Enrich.DATA_JSON_PATH).
Qed.

(** C7. When the dataset loads and the backup can be written, the first
    thing that the run does with the collection is to write it, as loaded,
    to the backup path; and however the run goes on and ends, the backup
    file holds the dataset as loaded, not the enriched one. *)
Theorem backup_holds_loaded_dataset key w d :
  loads w = Some d →
  write_outcome w Enrich.BACKUP_PATH = Written →
  Enrich.save_json_data d Enrich.BACKUP_PATH w =
    (set_disk (<[Enrich.BACKUP_PATH := FDataset d]> (disk w)) w, Ok ())
  ∧ disk (Enrich.main key w).1 !! Enrich.BACKUP_PATH = Some (FDataset d).
Proof.
  intros Hload Hb. split.
  { unfold Enrich.save_json_data, try_except, write_file. by rewrite Hb. }
  unfold loads in Hload.
  unfold Enrich.main, Enrich.load_json_data, try_except, read_json.
  unfold mbind at 1, io_bind at 1.
  destruct (disk w !! Enrich.DATA_JSON_PATH) as [[d'| |]|]; try done.
  injection Hload as ->.
  unfold mbind at 1, io_bind at 1.
  unfold Enrich.save_json_data at 1, try_except, write_file. rewrite Hb.
  set (D := <[Enrich.BACKUP_PATH := FDataset d]> (disk w)).
  assert (HD : D !! Enrich.BACKUP_PATH = Some (FDataset d))
    by apply lookup_insert_eq.
  unfold mbind at 1, io_bind at 1, lift.
  destruct (Enrich.extract_unique_channel_ids d) as [channel_ids|]; [|done].
  case_bool_decide; [done|].
  unfold mbind at 1, io_bind at 1, ask. cbn [set_order set_disk].
  unfold mbind at 1, io_bind at 1.
  rewrite fetch_set_disk.
  destruct (Enrich.fetch_channel_avatars_batch key (set_order w channel_ids) w)
    as [w' [avatar_urls|e]]; [|done].
  cbn [fst snd]. case_bool_decide; [done|].
  unfold mbind at 1, io_bind at 1, lift.
  destruct (Enrich.enrich_data_with_avatars d avatar_urls) as [s [data'|e]];
    [|done].
  cbn [snd]. unfold Enrich.save_json_data, try_except, write_file.
  cbn [write_outcome set_disk disk].
  destruct (write_outcome w' Enrich.DATA_JSON_PATH);
    unfold sys_exit, raise; cbn [fst disk set_disk].
  - by rewrite lookup_insert_ne.
  - done.
  - by rewrite lookup_insert_ne.
Qed.

(** ** A dataset whose channel ids are strings *)

Lemma extract_loop_strings d channel_ids :
  forallb string_id d = true →
  (∀ k, k ∈ channel_ids → is_kstr k = true) →
  ∃ channel_ids',
    Enrich.extract_loop d channel_ids = Ok channel_ids'
    ∧ ∀ k, k ∈ channel_ids' → is_kstr k = true.
Proof.
  revert channel_ids. induction d as [|item d IH]; intros channel_ids Hd Hs.
  - by exists channel_ids.
  - cbn [forallb] in Hd. apply andb_prop in Hd as [Hitem Hd].
    cbn [Enrich.extract_loop]. unfold string_id, dict_has, dict_item in *.
    destruct (dict_get "channelId" item) as [v|]; [|by apply IH].
    destruct v; try done. simpl. apply IH; [done|].
    intros k. rewrite elem_of_union, elem_of_singleton.
    intros [?| ->]; [by apply Hs | done].
Qed.

Lemma kstr_list (l : list hkey) :
  (∀ k, k ∈ l → is_kstr k = true) → ∃ l', l = KStr <$> l'.
Proof.
  induction l as [|k l IH]; intros H.
  - by exists [].
  - destruct IH as [l' ->]; [intros k' Hk'; apply H; by right|].
    destruct k as [| |s]; try (by discriminate (H _ ltac:(left))).
    by exists (s :: l').
Qed.

Lemma enrich_loop_strings avatar_urls d count :
  forallb string_id d = true →
  ∃ n, (Enrich.enrich_loop avatar_urls d count).2 = Ok n.
Proof.
  revert count. induction d as [|item d IH]; intros count Hd.
  - by exists count.
  - cbn [forallb] in Hd. apply andb_prop in Hd as [Hitem Hd].
    cbn [Enrich.enrich_loop].
    pose proof (enrich_item_cases avatar_urls item) as Hc.
    destruct (Enrich.enrich_item avatar_urls item) as [[item' n]|e] eqn:E.
    + destruct (IH (count + n) Hd) as [n' Hn'].
      destruct (Enrich.enrich_loop avatar_urls d (count + n)). by exists n'.
    + exfalso. unfold Enrich.enrich_item, string_id, dict_has, dict_item in *.
      destruct (dict_get "channelId" item) as [v|]; [|done].
      destruct v; try done. simpl in E. by destruct (avatar_urls !! _).
Qed.

Lemma bad_credential_iff key :
  bad_credential key ↔ Enrich.key_configured key = false.
Proof.
  unfold bad_credential, Enrich.key_configured.
  destruct (String.eqb_spec key "") as [->|H1]; simpl.
  { split; [done | by left]. }
  destruct (String.eqb_spec key Enrich.PLACEHOLDER) as [->|H2]; simpl.
  { split; [done | by right]. }
  split; [by intros [?|?] | done].
Qed.

Lemma fetch_strings key (l : list hkey) w :
  (∀ k, k ∈ l → is_kstr k = true) →
  Enrich.key_configured key = true →
  ∃ w' avatar_urls,
    Enrich.fetch_channel_avatars_batch key l w = (w', Ok avatar_urls).
Proof.
  intros Hl Hkey. destruct (kstr_list l Hl) as [ids ->].
  unfold Enrich.fetch_channel_avatars_batch. rewrite Hkey.
  destruct (fetch_loop_str key
              (py_range 0 (length (KStr <$> ids)) Enrich.batch_size) ids ∅ w)
    as (m' & Hrun & _).
  eauto.
Qed.

(** C3, as the code has it.  On a dataset whose channel ids are strings, the
    status of the enrichment run is 0 or 1; it is 0 exactly when [main]
    returns; and it is not 0 exactly when the dataset does not load, or a
    save fails (of the backup or of the dataset), or the API key is empty or
    the placeholder, or the set of channel ids is empty, or no avatar at all
    was retrieved. *)
Theorem enrichment_exit_status key w :
  (∀ d, loads w = Some d → forallb string_id d = true) →
  (∀ s k, k ∈ set_order w s → k ∈ s) →
  (exit_status (Enrich.main key w).2 = 0%Z
   ∨ exit_status (Enrich.main key w).2 = 1%Z)
  ∧ (exit_status (Enrich.main key w).2 = 0%Z ↔ (Enrich.main key w).2 = Ok ())
  ∧ (exit_status (Enrich.main key w).2 ≠ 0%Z ↔
     load_failure w ∨ save_failure w ∨ bad_credential key
     ∨ no_channel_ids w ∨ no_avatars key w).
Proof.
  intros Htyped Horder. rewrite main_result.
  unfold load_failure, save_failure, no_channel_ids, no_avatars.
  rewrite bad_credential_iff.
  destruct (loads w) as [d|] eqn:Hload; [|failing_run ltac:(by left)].
  specialize (Htyped d eq_refl).
  destruct (write_outcome w Enrich.BACKUP_PATH) eqn:Hb;
    [|failing_run ltac:(right; left; by left)..].
  destruct (extract_loop_strings d ∅ Htyped) as (ids & Hids & Hstr);
    [set_solver|].
  unfold Enrich.extract_unique_channel_ids. rewrite Hids.
  case_bool_decide as Hempty.
  { subst ids. failing_run ltac:(do 3 right; left; by exists d). }
  destruct (Enrich.key_configured key) eqn:Hkey.
  2:{ unfold Enrich.fetch_channel_avatars_batch. rewrite Hkey.
      failing_run ltac:(do 2 right; by left). }
  destruct (fetch_strings key (set_order w ids) w) as (w' & av & Hfetch);
    [by eauto | done |].
  rewrite Hfetch. cbn [snd].
  case_bool_decide as Hav.
  { subst av. failing_run ltac:(do 4 right; by exists d, ids, w'). }
  destruct (enrich_loop_strings av d 0 Htyped) as [n Hn].
  unfold Enrich.enrich_data_with_avatars.
  destruct (Enrich.enrich_loop av d 0) as [s r]. simpl in Hn. subst r.
  cbn [snd fmap result_fmap].
  destruct (write_outcome w Enrich.DATA_JSON_PATH) eqn:Hm;
    [|failing_run ltac:(right; left; by right)..].
  cbn [exit_status]. split; [by left|]. split; [done|]. split; [done|].
  intros [?|[[?|?]|[?|[(d' & Hd' & Hex)|(d' & ids' & w'' & Hd' & Hex & Hf)]]]];
    try done.
  - injection Hd' as <-. congruence.
  - injection Hd' as <-. rewrite Hids in Hex. injection Hex as <-. congruence.
Qed.

(** ** The Grouper *)

Section grouper.

Implicit Types (h : hkey * hkey * hkey) (key : Report.chan_key).
Implicit Types (video : record) (videos prefix : list record).
Implicit Types (g : Report.chan_key * list record).
Implicit Types (channels : list (Report.chan_key * list record)).

Lemma filter_none {A} (P : A → Prop) `{∀ x, Decision (P x)} (l : list A) :
  (∀ x, x ∈ l → ¬ P x) → filter P l = [].
Proof.
  induction l as [|x l IH]; intros Hl; [done|].
  rewrite filter_cons_False by (apply Hl; by left).
  apply IH. intros y Hy. apply Hl. by right.
Qed.

Lemma same_key_true h key :
  Report.same_key h key = true ↔ Report.hash_tuple key = Ok h.
Proof.
  unfold Report.same_key. destruct (Report.hash_tuple key) as [h'|e].
  - rewrite bool_decide_eq_true. split; congruence.
  - done.
Qed.

Lemma same_key_false h key :
  Report.same_key h key = false ↔ Report.hash_tuple key ≠ Ok h.
Proof. rewrite <- same_key_true. by destruct (Report.same_key h key). Qed.

Lemma groupable_key video :
  groupable video = true →
  ∃ key h, Report.channel_key video = Ok key
           ∧ Report.hash_tuple key = Ok h
           ∧ group_key video = Some h.
Proof.
  unfold groupable, group_key, Report.channel_key, dict_item.
  destruct (dict_get "channelId" video) as [c|]; [|done].
  destruct (dict_get "channelTitle" video) as [t|]; [|done].
  intros H. apply andb_prop in H as [H Ha]. apply andb_prop in H as [Hc Ht].
  set (a := dict_get_default "channelAvatarUrl" (JStr "") video) in *.
  exists (c, t, a). simpl. unfold Report.hash_tuple. simpl.
  destruct c, t, a; try done; simpl; eauto.
Qed.

(** The video goes to one group and nothing else moves. *)
Lemma add_video_perm h key video channels :
  concat (snd <$> Report.add_video h key video channels)
  ≡ₚ video :: concat (snd <$> channels).
Proof.
  induction channels as [|[key' vs] channels IH]; [done|].
  cbn [Report.add_video]. destruct (Report.same_key h key').
  - cbn [fmap list_fmap concat snd]. rewrite <- app_assoc.
    cbn [app]. by rewrite <- Permutation_middle.
  - cbn [fmap list_fmap concat snd] in *. rewrite IH.
    by rewrite Permutation_middle.
Qed.

Lemma touch_hash h video g : group_hash (touch h video g) = group_hash g.
Proof. unfold touch. by destruct (Report.same_key h g.1). Qed.

Lemma touch_others h video channels :
  Ok h ∉ group_hash <$> channels → touch h video <$> channels = channels.
Proof.
  induction channels as [|g channels IH]; [done|].
  rewrite fmap_cons, not_elem_of_cons. intros [Hg Hrest].
  rewrite fmap_cons, IH by done. f_equal. unfold touch.
  destruct (Report.same_key h g.1) eqn:E; [|done].
  apply same_key_true in E. unfold group_hash in Hg. congruence.
Qed.

(** With distinct keys in the dict, [add_video] either extends the group of
    the key or appends a new group. *)
Lemma add_video_shape h key video channels :
  NoDup (group_hash <$> channels) →
  ((Ok h ∈ (group_hash <$> channels))
   ∧ (Report.add_video h key video channels = (touch h video <$> channels)))
  ∨ ((Ok h ∉ (group_hash <$> channels))
     ∧ (Report.add_video h key video channels = channels ++ [(key, [video])])).
Proof.
  induction channels as [|[key' vs] channels IH]; intros Hnd.
  - right. split; [apply not_elem_of_nil | done].
  - rewrite fmap_cons in Hnd. apply NoDup_cons in Hnd as [Hnotin Hnd].
    cbn [Report.add_video]. rewrite fmap_cons.
    destruct (Report.same_key h key') eqn:E.
    + left. apply same_key_true in E. unfold group_hash at 1. cbn [fst].
      rewrite E. split; [by left|].
      rewrite fmap_cons. unfold touch at 1. cbn [fst snd].
      apply same_key_true in E. rewrite E. f_equal.
      apply same_key_true in E. symmetry. apply touch_others.
      unfold group_hash at 1 in Hnotin. cbn [fst] in Hnotin. by rewrite <- E.
    + apply same_key_false in E.
      destruct (IH Hnd) as [[Hin ->]|[Hout ->]].
      * left. split; [by right|].
        rewrite fmap_cons. f_equal. unfold touch. cbn [fst].
        apply same_key_false in E. by rewrite E.
      * right. split; [|done].
        rewrite not_elem_of_cons. split; [|done].
        unfold group_hash. cbn [fst]. congruence.
Qed.

Lemma grouped_covers prefix channels video h :
  grouped prefix channels →
  video ∈ prefix → group_key video = Some h →
  Ok h ∈ group_hash <$> channels.
Proof.
  intros (Hperm & _ & Hall) Hin Hkey.
  rewrite <- Hperm in Hin. apply list_elem_of_In, in_concat in Hin
    as (vs & Hvs & Hv).
  apply list_elem_of_In, list_elem_of_fmap in Hvs as (g & -> & Hg).
  rewrite Forall_forall in Hall. destruct (Hall g Hg) as (h' & Hh' & Heq & _).
  rewrite Heq in Hv. apply list_elem_of_In, list_elem_of_filter in Hv as [Hv _].
  rewrite Hkey in Hv. injection Hv as <-.
  apply list_elem_of_fmap. by exists g.
Qed.

Lemma is_group_of_snoc prefix video h g :
  group_key video = Some h →
  is_group_of prefix g →
  is_group_of (prefix ++ [video]) (touch h video g).
Proof.
  intros Hkey (h' & Hh' & Heq & Hne). exists h'.
  rewrite <- touch_hash with (h := h) (video := video) in Hh'.
  split; [done|]. rewrite touch_hash in Hh'.
  rewrite filter_app. unfold touch.
  destruct (Report.same_key h g.1) eqn:E; cbn [snd].
  - apply same_key_true in E. unfold group_hash in Hh'.
    assert (h' = h) as -> by congruence.
    rewrite (filter_cons_True _ video []) by done. rewrite <- Heq.
    split; [done | by destruct g.2].
  - apply same_key_false in E. unfold group_hash in Hh'.
    rewrite (filter_cons_False _ video []), filter_nil, app_nil_r; [done|].
    rewrite Hkey. intros [= ->]. congruence.
Qed.

Lemma grouped_add prefix channels video key h :
  grouped prefix channels →
  Report.channel_key video = Ok key →
  Report.hash_tuple key = Ok h →
  grouped (prefix ++ [video]) (Report.add_video h key video channels).
Proof.
  intros Hg Hck Hh.
  assert (Hkey : group_key video = Some h).
  { unfold group_key. rewrite Hck. simpl. by rewrite Hh. }
  pose proof Hg as (Hperm & Hnd & Hall).
  split_and!.
  - rewrite add_video_perm, Hperm. by rewrite <- Permutation_cons_append.
  - destruct (add_video_shape h key video channels Hnd)
      as [[Hin ->]|[Hout ->]].
    + rewrite <- list_fmap_compose.
      erewrite list_fmap_ext; [exact Hnd|].
      intros i g _. apply touch_hash.
    + rewrite fmap_app. apply NoDup_app. split_and!; [done| |].
      * intros x Hx Hx'. apply list_elem_of_singleton in Hx'.
        subst x. unfold group_hash at 1 in Hx. cbn [fst] in Hx.
        rewrite Hh in Hx. done.
      * apply NoDup_singleton.
  - destruct (add_video_shape h key video channels Hnd)
      as [[Hin ->]|[Hout ->]].
    + apply Forall_fmap. eapply Forall_impl; [exact Hall|].
      intros g Hgr. by apply is_group_of_snoc.
    + apply Forall_app. split.
      * rewrite Forall_forall in Hall |- *. intros g Hin.
        pose proof (is_group_of_snoc prefix video h g Hkey (Hall g Hin)) as Hs.
        unfold touch in Hs. destruct (Report.same_key h g.1) eqn:E; [|done].
        apply same_key_true in E. exfalso. apply Hout.
        apply list_elem_of_fmap. exists g. by rewrite <- E.
      * apply Forall_singleton. exists h. unfold group_hash. cbn [fst snd].
        split; [done|]. split; [|done].
        rewrite filter_app, (filter_cons_True _ video []) by done.
        replace (filter (fun v => group_key v = Some h) prefix) with (@nil record);
          [done|].
        symmetry. apply filter_none.
        intros v Hv Hvk. apply Hout. by eapply grouped_covers.
Qed.

Lemma group_loop_grouped rest prefix channels :
  forallb groupable rest = true →
  grouped prefix channels →
  ∃ channels',
    Report.group_loop rest channels = Ok channels'
    ∧ grouped (prefix ++ rest) channels'.
Proof.
  revert prefix channels.
  induction rest as [|video rest IH]; intros prefix channels Hrest Hg.
  - exists channels. by rewrite app_nil_r.
  - cbn [forallb] in Hrest. apply andb_prop in Hrest as [Hv Hrest].
    destruct (groupable_key video Hv) as (key & h & Hck & Hh & _).
    cbn [Report.group_loop]. rewrite Hck. simpl. rewrite Hh. simpl.
    destruct (IH (prefix ++ [video]) (Report.add_video h key video channels))
      as (channels' & Hrun & Hg'); [done | by eapply grouped_add |].
    exists channels'. split; [done|]. by rewrite <- app_assoc in Hg'.
Qed.

Lemma insert_desc_perm g channels :
  Report.insert_desc g channels ≡ₚ g :: channels.
Proof.
  induction channels as [|g' channels IH]; [done|].
  cbn [Report.insert_desc]. destruct (Nat.ltb _ _); [|done].
  rewrite IH. apply perm_swap.
Qed.

Lemma sorted_desc_perm channels : Report.sorted_desc channels ≡ₚ channels.
Proof.
  induction channels as [|g channels IH]; [done|].
  cbn [Report.sorted_desc foldr]. rewrite insert_desc_perm.
  by apply perm_skip.
Qed.

Lemma insert_desc_sorted g channels :
  StronglySorted bigger_first channels →
  StronglySorted bigger_first (Report.insert_desc g channels).
Proof.
  induction 1 as [|g' channels Hs IH Hall].
  - repeat constructor.
  - cbn [Report.insert_desc].
    destruct (Nat.ltb_spec (length g.2) (length g'.2)) as [Hlt|Hge].
    + constructor; [done|]. rewrite insert_desc_perm.
      constructor; [unfold bigger_first; lia | done].
    + constructor; [by constructor|]. constructor; [done|].
      eapply Forall_impl; [exact Hall|].
      unfold bigger_first. intros; simpl in *; lia.
Qed.

Lemma sorted_desc_sorted channels :
  StronglySorted bigger_first (Report.sorted_desc channels).
Proof.
  induction channels as [|g channels IH]; [constructor|].
  by apply insert_desc_sorted.
Qed.

Lemma sum_list_concat (ls : list (list record)) :
  sum_list (length <$> ls) = length (concat ls).
Proof.
  induction ls as [|l ls IH]; [done|].
  cbn [fmap list_fmap concat sum_list sum_list_with] in *.
  rewrite length_app. by rewrite <- IH.
Qed.

(** The sort is stable: the groups of any one size keep their order. *)
Lemma insert_desc_stable n g channels :
  filter (fun g' => length g'.2 = n) (Report.insert_desc g channels)
  = filter (fun g' => length g'.2 = n) (g :: channels).
Proof.
  induction channels as [|g' channels IH]; [done|].
  cbn [Report.insert_desc].
  destruct (Nat.ltb_spec (length g.2) (length g'.2)) as [Hlt|Hge]; [|done].
  rewrite (filter_cons _ g'), IH, !(filter_cons _ g), (filter_cons _ g').
  destruct (decide (length g'.2 = n)), (decide (length g.2 = n)); try done.
  lia.
Qed.

Lemma sorted_desc_stable n channels :
  filter (fun g => length g.2 = n) (Report.sorted_desc channels)
  = filter (fun g => length g.2 = n) channels.
Proof.
  induction channels as [|g channels IH]; [done|].
  cbn [Report.sorted_desc foldr]. rewrite insert_desc_stable.
  fold (Report.sorted_desc channels). by rewrite !(filter_cons _ g), IH.
Qed.

Lemma concat_perm (ls1 ls2 : list (list record)) :
  ls1 ≡ₚ ls2 → concat ls1 ≡ₚ concat ls2.
Proof.
  induction 1 as [|l ls1 ls2 _ IH|l l' ls|ls1 ls2 ls3 _ IH1 _ IH2].
  - done.
  - cbn [concat]. by rewrite IH.
  - cbn [concat]. rewrite !app_assoc. by rewrite (Permutation_app_comm l l').
  - by etrans.
Qed.

Lemma NoDup_fmap_eq {A B} (f : A → B) (l : list A) x y :
  NoDup (f <$> l) → x ∈ l → y ∈ l → f x = f y → x = y.
Proof.
  intros Hnd Hx Hy Hf.
  apply list_elem_of_lookup in Hx as [i Hi].
  apply list_elem_of_lookup in Hy as [j Hj].
  assert (i = j) as ->; [|congruence].
  eapply NoDup_lookup; [exact Hnd | |].
  - rewrite list_lookup_fmap, Hi. done.
  - rewrite list_lookup_fmap, Hj. simpl. by rewrite Hf.
Qed.

End grouper.

(** The key that the Grouper computes for a record is the composite key of
    the specification, and the key under which it files a group is the key
    of the group. *)
Lemma composite_key_group_key (video : record) :
  composite_key video = group_key video.
Proof.
  unfold composite_key, group_key, Report.channel_key, Report.hash_tuple,
    dict_item, dict_get_default.
  destruct (dict_get "channelId" video) as [c|]; [|done].
  destruct (dict_get "channelTitle" video) as [t|]; [|done].
  destruct (dict_get "channelAvatarUrl" video) as [a|]; simpl;
    destruct (hash_key c); simpl; try done;
    destruct (hash_key t); simpl; try done;
    by destruct (hash_key _).
Qed.

Lemma key_of_group_hash (g : Report.chan_key * list record) h :
  group_hash g = Ok h ↔ key_of_group g = Some h.
Proof.
  unfold group_hash, key_of_group, Report.hash_tuple.
  destruct (hash_key g.1.1.1); simpl; [|done].
  destruct (hash_key g.1.1.2); simpl; [|done].
  destruct (hash_key g.1.2); simpl; [|done].
  split; by intros [= <-].
Qed.

Lemma is_channel_group_of videos (g : Report.chan_key * list record) :
  is_group_of videos g → is_channel_group videos g.
Proof.
  intros (h & Hh & Heq & Hne). exists h. split_and!.
  - by apply key_of_group_hash.
  - rewrite Heq. apply list_filter_iff. intros video.
    by rewrite composite_key_group_key.
  - done.
Qed.

(** C8. On a collection whose records can be keyed, the Grouper returns
    groups that partition it by the composite key ([channelId],
    [channelTitle], avatar URL if present): the sizes of the groups add up
    to the number of records; the groups taken together are the records of
    the collection, each as many times as it occurs; the groups have
    distinct keys and each group is not empty and holds exactly the records
    that have its key, in the order of the collection, so that a record is
    in the group of its composite key and in no other, and two records are
    in one group if and only if their composite keys are equal; and no
    group comes before a larger one. *)
Theorem grouper_partitions videos :
  forallb groupable videos = true →
  ∃ groups,
    Report.group_videos_by_channel videos = Ok groups
    ∧ sum_list ((fun g => length g.2) <$> groups) = length videos
    ∧ concat (snd <$> groups) ≡ₚ videos
    ∧ NoDup (key_of_group <$> groups)
    ∧ Forall (is_channel_group videos) groups
    ∧ (∀ video, video ∈ videos →
         ∃ g, g ∈ groups ∧ video ∈ g.2
              ∧ key_of_group g = composite_key video
              ∧ ∀ g', g' ∈ groups → video ∈ g'.2 → g' = g)
    ∧ (∀ r1 r2, r1 ∈ videos → r2 ∈ videos →
         grouped_together groups r1 r2
         ↔ composite_key r1 = composite_key r2)
    ∧ StronglySorted bigger_first groups.
Proof.
  intros Hvideos.
  destruct (group_loop_grouped videos [] [] Hvideos)
    as (channels & Hrun & Hperm & Hnd & Hall).
  { split_and!; [done | constructor | constructor]. }
  cbn [app] in *.
  set (groups := Report.sorted_desc channels).
  assert (Hsort : groups ≡ₚ channels) by apply sorted_desc_perm.
  assert (Hperm' : concat (snd <$> groups) ≡ₚ videos).
  { rewrite <- Hperm. apply concat_perm. by rewrite Hsort. }
  assert (Hnd' : NoDup (group_hash <$> groups)) by by rewrite Hsort.
  assert (Hall' : Forall (is_group_of videos) groups) by by rewrite Hsort.
  rewrite Forall_forall in Hall'.
  assert (Hone : ∀ video, video ∈ videos →
            ∃ g h, g ∈ groups ∧ video ∈ g.2 ∧ group_hash g = Ok h
                   ∧ composite_key video = Some h
                   ∧ ∀ g', g' ∈ groups → video ∈ g'.2 → g' = g).
  { intros video Hin.
    assert (Hg : groupable video = true).
    { rewrite forallb_forall in Hvideos. by apply Hvideos, list_elem_of_In. }
    destruct (groupable_key video Hg) as (key & h & _ & _ & Hkey).
    assert (Hcov : Ok h ∈ group_hash <$> groups).
    { eapply grouped_covers; [|exact Hin | exact Hkey].
      split_and!; [done | done | by apply Forall_forall]. }
    apply list_elem_of_fmap in Hcov as (g & Hgh & Hgin).
    exists g, h. split_and!.
    - done.
    - destruct (Hall' g Hgin) as (h' & Hh' & -> & _).
      apply list_elem_of_filter. split; [congruence | done].
    - done.
    - by rewrite composite_key_group_key.
    - intros g' Hgin' Hv.
      destruct (Hall' g' Hgin') as (h' & Hh' & Heq & _).
      rewrite Heq in Hv. apply list_elem_of_filter in Hv as [Hv _].
      eapply (NoDup_fmap_eq group_hash); [exact Hnd' | done | done |].
      congruence. }
  exists groups. split_and!.
  - unfold Report.group_videos_by_channel. by rewrite Hrun.
  - replace ((fun g => length g.2) <$> groups)
      with (length <$> (snd <$> groups))
      by (by rewrite <- list_fmap_compose).
    by rewrite sum_list_concat, Hperm'.
  - exact Hperm'.
  - apply NoDup_fmap_2_strong; [|by eapply NoDup_fmap_1].
    intros g1 g2 Hg1 Hg2 Hk.
    destruct (Hall' g1 Hg1) as (h1 & Hh1 & _).
    destruct (Hall' g2 Hg2) as (h2 & Hh2 & _).
    eapply (NoDup_fmap_eq group_hash); [exact Hnd' | done | done |].
    rewrite Hh1, Hh2. f_equal.
    apply key_of_group_hash in Hh1, Hh2. congruence.
  - apply Forall_forall. intros g Hg. by apply is_channel_group_of, Hall'.
  - intros video Hin.
    destruct (Hone video Hin) as (g & h & Hg & Hv & Hh & Hk & Huniq).
    exists g. split_and!; try done.
    apply key_of_group_hash in Hh. congruence.
  - intros r1 r2 Hin1 Hin2. split.
    + intros (g & Hg & Hr1 & Hr2).
      destruct (Hall' g Hg) as (h & _ & Heq & _).
      rewrite Heq in Hr1, Hr2.
      apply list_elem_of_filter in Hr1 as [Hr1 _].
      apply list_elem_of_filter in Hr2 as [Hr2 _].
      rewrite !composite_key_group_key. congruence.
    + intros Hk.
      destruct (Hone r1 Hin1) as (g & h & Hg & Hv & Hh & Hk1 & _).
      exists g. split_and!; [done | done |].
      destruct (Hall' g Hg) as (h' & Hh' & -> & _).
      apply list_elem_of_filter. split; [|done].
      rewrite <- composite_key_group_key. congruence.
  - apply sorted_desc_sorted.
Qed.

(** C10. On an empty dataset, when the page can be written, the report run
    writes the page and then raises [ZeroDivisionError], which nothing
    catches: the average divides the number of videos by the number of
    groups, and there is no group. *)
Theorem empty_dataset_divides_by_zero w :
  disk w !! Report.data_file = Some (FDataset []) →
  write_outcome w Report.output_file = Written →
  ∃ page,
    Report.group_videos_by_channel [] = Ok []
    ∧ Report.generate_html [] (now w) = Ok page
    ∧ Report.main w =
      (set_disk (<[Report.output_file := FPage page]> (disk w)) w,
       Raise ZeroDivisionError)
    ∧ exit_status (Report.main w).2 = 1%Z.
Proof.
  intros Hfile Hwrite.
  assert (Hmain : Report.main w =
      (set_disk (<[Report.output_file :=
                     FPage [Lit "<html><div class=stats>"; Num 0; Grouped 0;
                            Lit "</div>"; Lit "<div class=timestamp>";
                            Lit (now w); Lit "</div></html>"]]> (disk w)) w,
       Raise ZeroDivisionError)).
  { unfold Report.main, Report.path_exists, Report.load_youtube_data, read_json,
      ask, lift, write_file, mbind, io_bind.
    rewrite Hfile. rewrite bool_decide_eq_true_2 by by eexists.
    cbn [negb]. cbv beta iota. rewrite Hfile.
    cbn [Report.group_videos_by_channel Report.group_loop Report.sorted_desc
         foldr mbind result_bind].
    cbn [now]. cbn [Report.generate_html mapM length]. cbv beta iota.
    cbn [write_outcome]. rewrite Hwrite. done. }
  eexists. split_and!; [done | done | exact Hmain |].
  by rewrite Hmain.
Qed.

(** * The theorems at concrete inputs *)

Lemma fetch_sends_every_id_once_witness :
  Enrich.key_configured "k" = true
  ∧ NoDup ex_ids
  ∧ ∃ w' avatar_urls reqs,
      Enrich.fetch_channel_avatars_batch "k" (KStr <$> ex_ids)
        (ex_world ex_api_flaky) = (w', Ok avatar_urls)
      ∧ sent w' = sent (ex_world ex_api_flaky) ++ reqs
      ∧ length reqs = (length ex_ids + 49) / 50
      ∧ Forall (fun r => 1 ≤ length (req_ids r) ∧ length (req_ids r) ≤ 50) reqs
      ∧ concat (req_ids <$> reqs) = ex_ids
      ∧ NoDup (concat (req_ids <$> reqs))
      ∧ ∀ id, id ∈ ex_ids ↔ ∃ r, r ∈ reqs ∧ id ∈ req_ids r.
Proof.
  split; [reflexivity|]. split; [by_computation|].
  apply (fetch_sends_every_id_once "k" ex_ids (ex_world ex_api_flaky)).
  - reflexivity.
  - by_computation.
Defined.

Lemma fetch_survives_failed_chunk_witness :
  Enrich.key_configured "k" = true
  ∧ py_range 0 (length ex_ids) 50 = [0] ++ 50 :: [100]
  ∧ chunk_reply "k" ex_ids [0] 50 (ex_world ex_api_flaky) = BadStatus
  ∧ ∃ m1 m2,
      Enrich.fetch_loop "k" [0] (KStr <$> ex_ids) ∅ (ex_world ex_api_flaky) =
        (log_requests (chunk_requests "k" ex_ids [0]) (ex_world ex_api_flaky),
         Ok m1)
      ∧ Enrich.fetch_channel_avatars_batch "k" (KStr <$> ex_ids)
          (ex_world ex_api_flaky) =
        (log_requests (chunk_requests "k" ex_ids ([0] ++ 50 :: [100]))
           (ex_world ex_api_flaky), Ok m2)
      ∧ Enrich.fetch_loop "k" [100] (KStr <$> ex_ids)
          (chunk_leaves "k" ex_ids [0] 50 (ex_world ex_api_flaky) m1)
          (log_requests (chunk_requests "k" ex_ids ([0] ++ [50]))
             (ex_world ex_api_flaky)) =
        (log_requests (chunk_requests "k" ex_ids ([0] ++ 50 :: [100]))
           (ex_world ex_api_flaky), Ok m2)
      ∧ match chunk_reply "k" ex_ids [0] 50 (ex_world ex_api_flaky) with
        | Body _ => True
        | ConnectionFails | BadStatus | BadBody =>
            chunk_leaves "k" ex_ids [0] 50 (ex_world ex_api_flaky) m1 = m1
        end
      ∧ dom m1 ⊆ dom (chunk_leaves "k" ex_ids [0] 50 (ex_world ex_api_flaky) m1)
      ∧ dom m1 ⊆ dom m2.
Proof.
  split; [reflexivity|]. split; [reflexivity|]. split; [reflexivity|].
  apply (fetch_survives_failed_chunk "k" ex_ids [0] 50 [100]
           (ex_world ex_api_flaky)); reflexivity.
Defined.

Lemma avatar_selection_policy_witness :
  ex_console_all (JStr "Channel A") = true
  ∧ first_present ex_thumbnails_A = Some "medium"
  ∧ match first_present ex_thumbnails_A with
    | Some quality =>
        ∃ thumbnail,
          dict_get quality ex_thumbnails_A = Some thumbnail
          ∧ Enrich.select_avatar (JObj ex_thumbnails_A)
            = py_getitem thumbnail "url"
          ∧ Enrich.process_item ex_console_all ∅ ex_item_A =
              match py_getitem thumbnail "url" with
              | Raise e => (∅, Raise e)
              | Ok url =>
                  if truthy url then
                    match hash_key (JStr "A") with
                    | Raise e => (∅, Raise e)
                    | Ok k =>
                        (<[k := url]> ∅, print_values ex_console_all [url])
                    end
                  else (∅, Ok ())
              end
    | None =>
        Enrich.select_avatar (JObj ex_thumbnails_A) = Ok JNull
        ∧ Enrich.process_item ex_console_all ∅ ex_item_A = (∅, Ok ())
    end
    ∧ (dict_has "high" ex_thumbnails_A = false →
       dict_has "medium" ex_thumbnails_A = true →
       first_present ex_thumbnails_A = Some "medium").
Proof.
  split; [reflexivity|]. split; [reflexivity|].
  apply (avatar_selection_policy ex_console_all ex_item_A (JStr "A")
           (JObj [("title", JStr "Channel A");
                  ("thumbnails", JObj ex_thumbnails_A)])
           (JStr "Channel A") ex_thumbnails_A ∅); reflexivity.
Defined.

(** C2, as the claim states it, fails on an item that has an id and a
    thumbnail mapping with none of the three keys and no title: the body of
    the loop raises [KeyError] before it gets to the selection, and the
    [except] clause gives up the rest of the chunk, so that the avatar of
    the item after it is lost.  It fails as well on such an item whose
    title the console cannot print: the [print] that reports the missing
    avatar raises. *)
Lemma channel_without_title_is_an_error :
  py_getitem ex_item_untitled "id" = Ok (JStr "B")
  ∧ (py_getitem ex_item_untitled "snippet" ≫= fun snippet =>
       py_getitem snippet "thumbnails") = Ok (JObj [])
  ∧ first_present [] = None
  ∧ Enrich.process_item ex_console_all ∅ ex_item_untitled = (∅, Raise KeyError)
  ∧ Enrich.process_items ex_console_all [ex_item_untitled; ex_item_A] ∅
    = (∅, Raise KeyError)
  ∧ Enrich.process_items ex_console_all [ex_item_A] ∅ = (ex_avatars, Ok ())
  ∧ Enrich.process_item (ex_console_without "Channel B") ∅ (ex_item "B" [])
    = (∅, Raise UnicodeEncodeError)
  ∧ ¬ (∃ m, Enrich.process_item ex_console_all ∅ ex_item_untitled = (m, Ok ())).
Proof.
  split_and!; try reflexivity. by intros [m [=]].
Qed.

Lemma record_without_channel_id_is_skipped_witness :
  dict_has "channelId" ex_orphan = false
  ∧ Enrich.extract_unique_channel_ids
      ([ex_video "v1" "A"] ++ ex_orphan :: [ex_video "v2" "B"])
    = Enrich.extract_unique_channel_ids
        ([ex_video "v1" "A"] ++ [ex_video "v2" "B"])
  ∧ Enrich.enrich_item {[KStr "A" := JStr "https://img/A"]} ex_orphan
    = Ok (ex_orphan, 0)
  ∧ (Enrich.enrich_data_with_avatars
       ([ex_video "v1" "A"] ++ ex_orphan :: [ex_video "v2" "B"])
       {[KStr "A" := JStr "https://img/A"]}).1 =
      take (length [ex_video "v1" "A"])
        (Enrich.enrich_data_with_avatars
           ([ex_video "v1" "A"] ++ [ex_video "v2" "B"])
           {[KStr "A" := JStr "https://img/A"]}).1
      ++ ex_orphan :: drop (length [ex_video "v1" "A"])
           (Enrich.enrich_data_with_avatars
              ([ex_video "v1" "A"] ++ [ex_video "v2" "B"])
              {[KStr "A" := JStr "https://img/A"]}).1
  ∧ (Enrich.enrich_data_with_avatars
       ([ex_video "v1" "A"] ++ ex_orphan :: [ex_video "v2" "B"])
       {[KStr "A" := JStr "https://img/A"]}).1
    !! length [ex_video "v1" "A"] = Some ex_orphan
  ∧ (Enrich.enrich_loop {[KStr "A" := JStr "https://img/A"]}
       ([ex_video "v1" "A"] ++ ex_orphan :: [ex_video "v2" "B"]) 0).2
    = (Enrich.enrich_loop {[KStr "A" := JStr "https://img/A"]}
         ([ex_video "v1" "A"] ++ [ex_video "v2" "B"]) 0).2.
Proof.
  split; [reflexivity|].
  apply (record_without_channel_id_is_skipped [ex_video "v1" "A"] ex_orphan
           [ex_video "v2" "B"] {[KStr "A" := JStr "https://img/A"]}).
  reflexivity.
Defined.

(** C3 as the specification words it does not hold when the API is out of
    reach: the dataset loads, both saves would succeed, the key is
    configured and there are two channel ids, and yet the run ends with
    status 1, because no avatar was retrieved. *)
Lemma exit_status_one_without_listed_failure :
  exit_status (Enrich.main "k" (ex_world ex_api_offline)).2 = 1%Z
  ∧ loads (ex_world ex_api_offline) = Some ex_dataset
  ∧ write_outcome (ex_world ex_api_offline) Enrich.BACKUP_PATH = Written
  ∧ write_outcome (ex_world ex_api_offline) Enrich.DATA_JSON_PATH = Written
  ∧ Enrich.key_configured "k" = true
  ∧ Enrich.extract_unique_channel_ids ex_dataset = Ok {[KStr "A"; KStr "B"]}
  ∧ size ({[KStr "A"; KStr "B"]} : gset hkey) = 2
  ∧ ¬ (load_failure (ex_world ex_api_offline)
       ∨ save_failure (ex_world ex_api_offline)
       ∨ bad_credential "k"
       ∨ no_channel_ids (ex_world ex_api_offline)).
Proof.
  split_and!; try by vm_compute.
  intros [H|[[H|H]|[[H|H]|(d & Hd & He)]]]; try by vm_compute in H.
  vm_compute in Hd. injection Hd as <-. by vm_compute in He.
Qed.

Lemma enrichment_exit_status_witness :
  (exit_status (Enrich.main "k" (ex_world ex_api_online)).2 = 0%Z
   ∨ exit_status (Enrich.main "k" (ex_world ex_api_online)).2 = 1%Z)
  ∧ (exit_status (Enrich.main "k" (ex_world ex_api_online)).2 = 0%Z
     ↔ (Enrich.main "k" (ex_world ex_api_online)).2 = Ok ())
  ∧ (exit_status (Enrich.main "k" (ex_world ex_api_online)).2 ≠ 0%Z ↔
     load_failure (ex_world ex_api_online)
     ∨ save_failure (ex_world ex_api_online) ∨ bad_credential "k"
     ∨ no_channel_ids (ex_world ex_api_online)
     ∨ no_avatars "k" (ex_world ex_api_online)).
Proof.
  apply (enrichment_exit_status "k" (ex_world ex_api_online)).
  - intros d Hd. vm_compute in Hd. injection Hd as <-. reflexivity.
  - intros s k. apply elem_of_elements.
Defined.

Lemma backup_holds_loaded_dataset_witness :
  loads (ex_world ex_api_online) = Some ex_dataset
  ∧ write_outcome (ex_world ex_api_online) Enrich.BACKUP_PATH = Written
  ∧ Enrich.save_json_data ex_dataset Enrich.BACKUP_PATH (ex_world ex_api_online)
    = (set_disk (<[Enrich.BACKUP_PATH := FDataset ex_dataset]>
                   (disk (ex_world ex_api_online)))
         (ex_world ex_api_online), Ok ())
  ∧ disk (Enrich.main "k" (ex_world ex_api_online)).1 !! Enrich.BACKUP_PATH
    = Some (FDataset ex_dataset).
Proof.
  split; [reflexivity|]. split; [reflexivity|].
  apply (backup_holds_loaded_dataset "k" (ex_world ex_api_online) ex_dataset);
    reflexivity.
Defined.

Lemma grouper_partitions_witness :
  forallb groupable ex_dataset = true
  ∧ ∃ groups,
      Report.group_videos_by_channel ex_dataset = Ok groups
      ∧ sum_list ((fun g => length g.2) <$> groups) = length ex_dataset
      ∧ concat (snd <$> groups) ≡ₚ ex_dataset
      ∧ NoDup (key_of_group <$> groups)
      ∧ Forall (is_channel_group ex_dataset) groups
      ∧ (∀ video, video ∈ ex_dataset →
           ∃ g, g ∈ groups ∧ video ∈ g.2
                ∧ key_of_group g = composite_key video
                ∧ ∀ g', g' ∈ groups → video ∈ g'.2 → g' = g)
      ∧ (∀ r1 r2, r1 ∈ ex_dataset → r2 ∈ ex_dataset →
           grouped_together groups r1 r2
           ↔ composite_key r1 = composite_key r2)
      ∧ StronglySorted bigger_first groups.
Proof.
  split; [reflexivity|].
  apply (grouper_partitions ex_dataset). reflexivity.
Defined.

Lemma empty_dataset_divides_by_zero_witness :
  disk (ex_world ex_api_online) !! Report.data_file = Some (FDataset [])
  ∧ write_outcome (ex_world ex_api_online) Report.output_file = Written
  ∧ ∃ page,
      Report.group_videos_by_channel [] = Ok []
      ∧ Report.generate_html [] (now (ex_world ex_api_online)) = Ok page
      ∧ Report.main (ex_world ex_api_online) =
        (set_disk (<[Report.output_file := FPage page]>
                     (disk (ex_world ex_api_online)))
           (ex_world ex_api_online),
         Raise ZeroDivisionError)
      ∧ exit_status (Report.main (ex_world ex_api_online)).2 = 1%Z.
Proof.
  split; [by vm_compute|]. split; [reflexivity|].
  apply (empty_dataset_divides_by_zero (ex_world ex_api_online));
    [by vm_compute | reflexivity].
Defined.

(** ** The scenario of the specification *)

(** Two records of channel A and one of channel B, and an API that has an
    avatar for A only: the run ends with status 0, one request was sent for
    the two channel ids, one avatar was found, the two records of A have got
    [channelAvatarUrl] and the record of B is as it was, and the backup is
    the dataset as loaded. *)
Example scenario_two_channels_one_avatar :
  exit_status (Enrich.main "k" (ex_world ex_api_online)).2 = 0%Z
  ∧ size <$> Enrich.extract_unique_channel_ids ex_dataset = Ok 2
  ∧ length (sent (Enrich.main "k" (ex_world ex_api_online)).1) = 1
  ∧ (size <$> (Enrich.fetch_channel_avatars_batch "k" [KStr "A"; KStr "B"]
                 (ex_world ex_api_online)).2) = Ok 1
  ∧ disk (Enrich.main "k" (ex_world ex_api_online)).1 !! Enrich.DATA_JSON_PATH
    = Some (FDataset
        [dict_set "channelAvatarUrl" (JStr "https://img/A/medium")
           (ex_video "v1" "A");
         ex_video "v2" "B";
         dict_set "channelAvatarUrl" (JStr "https://img/A/medium")
           (ex_video "v3" "A")])
  ∧ disk (Enrich.main "k" (ex_world ex_api_online)).1 !! Enrich.BACKUP_PATH
    = Some (FDataset ex_dataset).
Proof. split_and!; by vm_compute. Qed.

(** The script as shipped, with the placeholder for a key, stops before any
    request. *)
Example placeholder_key_exits :
  Enrich.main Enrich.PLACEHOLDER (ex_world ex_api_online)
  = (set_disk (<[Enrich.BACKUP_PATH := FDataset ex_dataset]>
                 (disk (ex_world ex_api_online)))
       (ex_world ex_api_online), Raise (SystemExit 1)).
Proof. by vm_compute. Qed.

(** A record without [channelId] makes the Grouper raise. *)
Example grouper_needs_channel_id :
  Report.group_videos_by_channel [ex_video "v1" "A"; ex_orphan] = Raise KeyError.
Proof. reflexivity. Qed.

(** Each of the three components splits groups: the same channel id under
    another title, or with an avatar, is another group; an absent avatar
    and an empty one are the same. *)
Example grouper_keys_by_three_components :
  Report.group_videos_by_channel
    [[("channelId", JStr "A"); ("channelTitle", JStr "One")];
     [("channelId", JStr "A"); ("channelTitle", JStr "Two")];
     [("channelId", JStr "A"); ("channelTitle", JStr "One");
      ("channelAvatarUrl", JStr "https://img/A")];
     [("channelId", JStr "A"); ("channelTitle", JStr "One");
      ("channelAvatarUrl", JStr "")]]
  = Ok [((JStr "A", JStr "One", JStr ""),
         [[("channelId", JStr "A"); ("channelTitle", JStr "One")];
          [("channelId", JStr "A"); ("channelTitle", JStr "One");
           ("channelAvatarUrl", JStr "")]]);
        ((JStr "A", JStr "Two", JStr ""),
         [[("channelId", JStr "A"); ("channelTitle", JStr "Two")]]);
        ((JStr "A", JStr "One", JStr "https://img/A"),
         [[("channelId", JStr "A"); ("channelTitle", JStr "One");
           ("channelAvatarUrl", JStr "https://img/A")]])].
Proof. reflexivity. Qed.

(** An item whose line the console cannot print raises after its avatar
    has been recorded, and the item after it is not looked at. *)
Example unprintable_title_keeps_own_avatar :
  Enrich.process_items (ex_console_without "Channel C") [ex_item_C; ex_item_D] ∅
  = ({[KStr "C" := JStr "https://img/C/high"]}, Raise UnicodeEncodeError).
Proof. reflexivity. Qed.

(** * Further properties of the enrichment script *)

(** ** The Deduplicator *)

Lemma extract_item_cases (item : record) :
  (dict_has "channelId" item = false)
  ∨ (∃ v k, dict_get "channelId" item = Some v ∧ hash_key v = Ok k)
  ∨ (∃ v, dict_get "channelId" item = Some v ∧ hash_key v = Raise TypeError).
Proof.
  unfold dict_has. destruct (dict_get "channelId" item) as [v|]; [|by left].
  right. destruct v; simpl; eauto 6.
Qed.

Lemma extract_loop_spec data channel_ids :
  match Enrich.extract_loop data channel_ids with
  | Ok ids =>
      ∀ k, k ∈ ids ↔
           k ∈ channel_ids
           ∨ ∃ item v, item ∈ data ∧ dict_get "channelId" item = Some v
                       ∧ hash_key v = Ok k
  | Raise e =>
      e = TypeError
      ∧ ∃ item v, item ∈ data ∧ dict_get "channelId" item = Some v
                  ∧ hashable v = false
  end.
Proof.
  revert channel_ids. induction data as [|item data IH]; intros channel_ids.
  - simpl. intros k. split; [by left|]. intros [?|(item & v & Hin & _)]; [done|].
    by apply elem_of_nil in Hin.
  - cbn [Enrich.extract_loop]. unfold dict_has, dict_item.
    destruct (dict_get "channelId" item) as [v|] eqn:Hv.
    + simpl. destruct (hash_key v) as [kv|e] eqn:Hk; simpl.
      * specialize (IH (channel_ids ∪ {[kv]})).
        destruct (Enrich.extract_loop data (channel_ids ∪ {[kv]})) as [ids|e].
        -- intros k. rewrite IH, elem_of_union, elem_of_singleton. split.
           ++ intros [[?| ->]|(it & v' & Hin & Hv' & Hk')].
              ** by left.
              ** right. exists item, v. split_and!; [by left | done | done].
              ** right. exists it, v'. split_and!; [by right | done | done].
           ++ intros [?|(it & v' & Hin & Hv' & Hk')]; [by left; left|].
              apply elem_of_cons in Hin as [->|Hin].
              ** left. right. congruence.
              ** right. by exists it, v'.
        -- destruct IH as (-> & it & v' & Hin & Hv' & Hh). split; [done|].
           exists it, v'. split_and!; [by right | done | done].
      * assert (e = TypeError ∧ hashable v = false) as [-> Hh]
          by (destruct v; simpl in *; by inversion Hk).
        split; [done|]. exists item, v. split_and!; [by left | done | done].
    + specialize (IH channel_ids).
      destruct (Enrich.extract_loop data channel_ids) as [ids|e].
      * intros k. rewrite IH. split.
        -- intros [?|(it & v' & Hin & Hv' & Hk')]; [by left|].
           right. exists it, v'. split_and!; [by right | done | done].
        -- intros [?|(it & v' & Hin & Hv' & Hk')]; [by left|].
           apply elem_of_cons in Hin as [->|Hin]; [congruence|].
           right. by exists it, v'.
      * destruct IH as (-> & it & v' & Hin & Hv' & Hh). split; [done|].
        exists it, v'. split_and!; [by right | done | done].
Qed.

(** X1. The Deduplicator returns exactly the channel ids of the collection:
    a key is in the set if and only if it is the [channelId] of some record.
    It raises, and then a [TypeError], only when some record has a
    [channelId] that cannot be hashed (a list or an object). *)
Theorem extract_collects_channel_ids data :
  match Enrich.extract_unique_channel_ids data with
  | Ok ids =>
      ∀ k, k ∈ ids ↔
           ∃ item v, item ∈ data ∧ dict_get "channelId" item = Some v
                     ∧ hash_key v = Ok k
  | Raise e =>
      e = TypeError
      ∧ ∃ item v, item ∈ data ∧ dict_get "channelId" item = Some v
                  ∧ hashable v = false
  end.
Proof.
  unfold Enrich.extract_unique_channel_ids.
  pose proof (extract_loop_spec data ∅) as H.
  destruct (Enrich.extract_loop data ∅) as [ids|e]; [|done].
  intros k. rewrite H. split; [|by right].
  intros [Hin|?]; [|done]. by apply not_elem_of_empty in Hin.
Qed.

Lemma extract_loop_cons item data channel_ids :
  Enrich.extract_loop (item :: data) channel_ids =
  match hash_key <$> dict_get "channelId" item with
  | None => Enrich.extract_loop data channel_ids
  | Some (Ok k) => Enrich.extract_loop data (channel_ids ∪ {[k]})
  | Some (Raise e) => Raise e
  end.
Proof.
  cbn [Enrich.extract_loop]. unfold dict_has, dict_item.
  destruct (dict_get "channelId" item) as [v|]; [|done]. simpl.
  by destruct (hash_key v).
Qed.

Lemma hash_key_raises v e : hash_key v = Raise e → e = TypeError.
Proof. by destruct v; intros [=]. Qed.

Lemma extract_loop_perm data data' channel_ids :
  data ≡ₚ data' →
  Enrich.extract_loop data channel_ids = Enrich.extract_loop data' channel_ids.
Proof.
  intros Hperm. revert channel_ids.
  induction Hperm as [|x l l' _ IH|x y l|l1 l2 l3 _ IH1 _ IH2];
    intros channel_ids.
  - done.
  - rewrite !extract_loop_cons.
    by destruct (hash_key <$> dict_get "channelId" x) as [[k|e]|].
  - destruct (dict_get "channelId" x) as [vx|] eqn:Hvx,
             (dict_get "channelId" y) as [vy|] eqn:Hvy;
      try destruct (hash_key vx) as [kx|ex] eqn:Hx;
      try destruct (hash_key vy) as [ky|ey] eqn:Hy;
      repeat (rewrite extract_loop_cons, ?Hvx, ?Hvy;
              cbn [fmap option_fmap option_map]; rewrite ?Hx, ?Hy);
      try done.
    + by rewrite <- !(assoc_L (∪)), (comm_L (∪) {[kx]}).
    + apply hash_key_raises in Hx, Hy. congruence.
  - by rewrite IH1, IH2.
Qed.

(** X2. The Deduplicator does not depend on the order of the records: on two
    collections that hold the same records it returns the same set, or
    raises the same exception. *)
Theorem extract_ignores_order data data' :
  data ≡ₚ data' →
  Enrich.extract_unique_channel_ids data
  = Enrich.extract_unique_channel_ids data'.
Proof. intros H. by apply extract_loop_perm. Qed.

(** ** The Merger, when it returns *)

Lemma enrich_loop_merge avatar_urls data count n :
  (Enrich.enrich_loop avatar_urls data count).2 = Ok n →
  (Enrich.enrich_loop avatar_urls data count).1 = merge_record avatar_urls <$> data.
Proof.
  intros H. destruct (enrich_loop_complete avatar_urls data count n H) as [Hall _].
  revert Hall. generalize (Enrich.enrich_loop avatar_urls data count).1.
  clear H. induction data as [|r data IH]; intros s Hall.
  - by apply Forall2_nil_inv_l in Hall.
  - apply Forall2_cons_inv_l in Hall as (r' & s' & Hr & Hs & ->).
    rewrite fmap_cons, <- (IH s' Hs). f_equal. unfold merge_record.
    by destruct (avatar_of avatar_urls r).
Qed.

(** X3. On a collection whose channel ids are strings the Merger returns,
    and the collection is then the original one in which every record whose
    channel has an avatar in the mapping has [channelAvatarUrl] set to that
    avatar, present before or not, and the other records are as they were;
    the count it reports is the number of records so enriched. *)
Theorem merger_enriches_mapped_records data avatar_urls :
  forallb string_id data = true →
  Enrich.enrich_data_with_avatars data avatar_urls
  = (merge_record avatar_urls <$> data, Ok (merge_record avatar_urls <$> data))
  ∧ Enrich.enrich_loop avatar_urls data 0
    = (merge_record avatar_urls <$> data,
       Ok (length (filter (fun r => is_Some (avatar_of avatar_urls r)) data)))
  ∧ Forall (fun r => ∀ url, avatar_of avatar_urls r = Some url →
              dict_get "channelAvatarUrl" (merge_record avatar_urls r) = Some url)
      data.
Proof.
  intros Htyped.
  destruct (enrich_loop_strings avatar_urls data 0 Htyped) as [n Hn].
  pose proof (enrich_loop_merge avatar_urls data 0 n Hn) as Hstate.
  destruct (enrich_loop_complete avatar_urls data 0 n Hn) as [_ Hcount].
  unfold Enrich.enrich_data_with_avatars.
  destruct (Enrich.enrich_loop avatar_urls data 0) as [s r].
  simpl in *. subst. split_and!; [done | done |].
  apply Forall_forall. intros r _ url Hurl. unfold merge_record.
  rewrite Hurl. apply dict_get_set_eq.
Qed.

(** ** What the Batch Fetcher keeps *)

Lemma process_item_truthy console m item :
  all_truthy m → all_truthy (Enrich.process_item console m item).1.
Proof.
  intros Hm.
  destruct (process_item_cases console m item)
    as [[r ->]|(cid & title & url & k & _ & Hurl & _ & ->)]; [done|].
  by apply map_Forall_insert_2.
Qed.

Lemma process_items_truthy console items m :
  all_truthy m → all_truthy (Enrich.process_items console items m).1.
Proof.
  revert m. induction items as [|item items IH]; intros m Hm; [done|].
  cbn [Enrich.process_items].
  pose proof (process_item_truthy console m item Hm) as Hitem.
  destruct (Enrich.process_item console m item) as [m' [[]|e]]; [|done].
  by apply IH.
Qed.

Lemma after_response_truthy console response batch m :
  all_truthy m → all_truthy (Enrich.after_response console response batch m).
Proof.
  intros Hm. unfold Enrich.after_response, Enrich.try_block.
  destruct response as [| | |data]; try done.
  unfold Enrich.handle_data.
  destruct (py_contains "items" data) as [[]|]; try done.
  destruct (py_getitem data "items" ≫= py_iter) as [items|]; try done.
  pose proof (process_items_truthy console items m Hm) as H.
  by destruct (Enrich.process_items console items m) as [m' []].
Qed.

Lemma fetch_loop_truthy key starts ids m w :
  all_truthy m →
  match (Enrich.fetch_loop key starts ids m w).2 with
  | Ok m' => all_truthy m'
  | Raise _ => True
  end.
Proof.
  revert m w. induction starts as [|i starts IH]; intros m w Hm; [done|].
  cbn [Enrich.fetch_loop]. unfold mbind at 1, io_bind at 1.
  unfold Enrich.fetch_batch, mbind, io_bind, lift, Enrich.requests_get.
  destruct (Enrich.str_join _) as [strs|]; [|done].
  apply IH. by apply after_response_truthy.
Qed.

(** X4. Whatever the ids, the replies and the world, a mapping that the
    Batch Fetcher returns has no falsy avatar: no [None], no empty string. *)
Theorem fetched_avatars_are_truthy key ids w :
  match (Enrich.fetch_channel_avatars_batch key ids w).2 with
  | Ok avatar_urls => all_truthy avatar_urls
  | Raise _ => True
  end.
Proof.
  unfold Enrich.fetch_channel_avatars_batch.
  destruct (Enrich.key_configured key); [|done].
  apply fetch_loop_truthy. apply map_Forall_empty.
Qed.

Lemma process_items_app console items1 items2 m :
  Enrich.process_items console (items1 ++ items2) m =
  match Enrich.process_items console items1 m with
  | (m1, Ok _) => Enrich.process_items console items2 m1
  | (m1, Raise e) => (m1, Raise e)
  end.
Proof.
  revert m. induction items1 as [|item items1 IH]; intros m; [done|].
  cbn [app Enrich.process_items].
  by destruct (Enrich.process_item console m item) as [m' [[]|e]].
Qed.

Lemma print_values_raises console vs e :
  print_values console vs = Raise e → e = UnicodeEncodeError.
Proof. unfold print_values. by destruct (forallb console vs); intros [=]. Qed.

(** X5. An item that raises ends the work on its chunk and on that chunk
    only half-way: the avatars that the items before it gave stay in the
    mapping, and the items after it are not looked at, whatever they are.
    The item itself leaves the mapping as the items before it made it,
    unless what raises is the [print] of its line: then its own avatar,
    which is truthy, has been recorded under its id. *)
Theorem item_error_keeps_earlier_items console items1 bad items2 batch
    m m1 m1' e :
  Enrich.process_items console items1 m = (m1, Ok ()) →
  Enrich.process_item console m1 bad = (m1', Raise e) →
  Enrich.process_items console (items1 ++ bad :: items2) m = (m1', Raise e)
  ∧ Enrich.try_block console
      (Body (JObj [("items", JArr (items1 ++ bad :: items2))])) batch m
    = (m1', Raise e)
  ∧ Enrich.after_response console
      (Body (JObj [("items", JArr (items1 ++ bad :: items2))])) batch m = m1'
  ∧ dom m1 ⊆ dom m1'
  ∧ (m1' = m1
     ∨ (e = UnicodeEncodeError
        ∧ ∃ cid title url k,
            Enrich.read_item bad = Ok (cid, title, url)
            ∧ hash_key cid = Ok k ∧ truthy url = true
            ∧ (console title && console url = false)
            ∧ m1' = <[k := url]> m1)).
Proof.
  intros H1 Hbad.
  assert (H : Enrich.process_items console (items1 ++ bad :: items2) m
              = (m1', Raise e)).
  { rewrite process_items_app, H1. cbn [Enrich.process_items]. by rewrite Hbad. }
  assert (Ht : Enrich.try_block console
      (Body (JObj [("items", JArr (items1 ++ bad :: items2))])) batch m
    = (m1', Raise e)).
  { unfold Enrich.try_block, Enrich.handle_data. cbn. by rewrite H. }
  split_and!; [done | done | | |].
  - unfold Enrich.after_response. by rewrite Ht.
  - pose proof (process_item_dom console m1 bad) as Hdom. by rewrite Hbad in Hdom.
  - destruct (process_item_cases console m1 bad)
      as [[r Hr]|(cid & title & url & k & Hread & Hurl & Hk & Hr)];
      rewrite Hr in Hbad.
    + left. by injection Hbad as <-.
    + right. injection Hbad as <- Hprint. split.
      * by eapply print_values_raises.
      * exists cid, title, url, k. split_and!; try done.
        unfold print_values in Hprint. cbn [forallb] in Hprint.
        rewrite andb_true_r in Hprint.
        by destruct (console title && console url).
Qed.

(** X6. The first quality that is present decides alone: when [high] is
    there with a falsy URL, the channel gets no avatar, whatever [medium]
    and [default] hold and whether or not the item has a title; with a
    title, all that the item does is to print it. *)
Theorem falsy_high_hides_other_qualities console item cid snippet
    (thumbnails : pydict) thumbnail url m :
  py_getitem item "id" = Ok cid →
  py_getitem item "snippet" = Ok snippet →
  py_getitem snippet "thumbnails" = Ok (JObj thumbnails) →
  dict_get "high" thumbnails = Some thumbnail →
  py_getitem thumbnail "url" = Ok url →
  truthy url = false →
  Enrich.select_avatar (JObj thumbnails) = Ok url
  ∧ (Enrich.process_item console m item).1 = m
  ∧ match py_getitem snippet "title" with
    | Ok title =>
        Enrich.process_item console m item
        = (m, print_values console [title])
    | Raise e => Enrich.process_item console m item = (m, Raise e)
    end.
Proof.
  intros Hid Hsn Hth Hhigh Hurl Hfalsy.
  assert (Hsel : Enrich.select_avatar (JObj thumbnails) = Ok url).
  { unfold Enrich.select_avatar, Enrich.qualities.
    by rewrite (pick_quality_present _ _ _ _ Hhigh). }
  assert (Hitem :
    match py_getitem snippet "title" with
    | Ok title =>
        Enrich.process_item console m item
        = (m, print_values console [title])
    | Raise e => Enrich.process_item console m item = (m, Raise e)
    end).
  { unfold Enrich.process_item, Enrich.read_item.
    rewrite Hid, Hsn. simpl.
    destruct (py_getitem snippet "title") as [title|e]; [|done].
    simpl. rewrite Hth. simpl. rewrite Hsel. simpl. by rewrite Hfalsy. }
  split_and!; [done | | done].
  destruct (py_getitem snippet "title"); by rewrite Hitem.
Qed.

Lemma str_join_ok batch ids :
  Enrich.str_join batch = Ok ids → batch = KStr <$> ids.
Proof.
  revert ids. induction batch as [|k batch IH]; intros ids H.
  - by injection H as <-.
  - destruct k as [| |s]; try done. cbn [Enrich.str_join] in H.
    destruct (Enrich.str_join batch) as [ids'|]; [|done].
    simpl in H. injection H as <-. by rewrite (IH ids' eq_refl).
Qed.

Lemma str_join_raises batch e :
  Enrich.str_join batch = Raise e → e = TypeError.
Proof.
  induction batch as [|k batch IH]; [done|].
  destruct k as [| |s]; cbn [Enrich.str_join]; try by intros [= <-].
  destruct (Enrich.str_join batch); [done|]. simpl. intros [= <-]. by apply IH.
Qed.

Lemma fetch_loop_bad_id key ids fuel i j k m w :
  length ids - i ≤ fuel →
  i ≤ j → ids !! j = Some k → is_kstr k = false →
  (Enrich.fetch_loop key (range_from fuel i (length ids) 50) ids m w).2
  = Raise TypeError.
Proof.
  intros Hfuel Hij Hj Hk. revert i m w Hfuel Hij.
  induction fuel as [|fuel IH]; intros i m w Hfuel Hij.
  - apply lookup_lt_Some in Hj. lia.
  - pose proof (lookup_lt_Some _ _ _ Hj) as Hlt.
    cbn [range_from]. destruct (Nat.ltb_spec i (length ids)); [|lia].
    cbn [Enrich.fetch_loop]. unfold mbind at 1, io_bind at 1.
    unfold Enrich.fetch_batch, mbind, io_bind, lift, Enrich.requests_get.
    change Enrich.batch_size with 50.
    destruct (Enrich.str_join (py_slice ids i (i + 50))) as [strs|e] eqn:Hjoin.
    + apply str_join_ok in Hjoin.
      destruct (decide (j < i + 50)) as [Hnear|Hfar].
      * exfalso.
        assert (Hs : py_slice ids i (i + 50) !! (j - i) = Some k).
        { unfold py_slice. rewrite lookup_take_lt by lia.
          rewrite lookup_drop. by replace (i + (j - i)) with j by lia. }
        rewrite Hjoin, list_lookup_fmap in Hs.
        destruct (strs !! (j - i)); simpl in Hs; [|done].
        injection Hs as <-. done.
      * apply IH; lia.
    + cbn [snd]. f_equal. by eapply str_join_raises.
Qed.

(** X7. A channel id that is not a string is not a matter of one chunk: the
    join of the ids is outside the [try], so with the key configured the
    whole fetch raises [TypeError] as soon as a list holds such an id. *)
Theorem non_string_id_aborts_fetch key ids j k w :
  Enrich.key_configured key = true →
  ids !! j = Some k →
  is_kstr k = false →
  (Enrich.fetch_channel_avatars_batch key ids w).2 = Raise TypeError.
Proof.
  intros Hkey Hj Hk. unfold Enrich.fetch_channel_avatars_batch.
  rewrite Hkey. change Enrich.batch_size with 50. unfold py_range.
  eapply fetch_loop_bad_id; [lia | | exact Hj | exact Hk]. lia.
Qed.

(** ** The files of the enrichment run *)

Lemma merger_state_returned d avatar_urls :
  match (Enrich.enrich_data_with_avatars d avatar_urls).2 with
  | Ok data' => data' = (Enrich.enrich_data_with_avatars d avatar_urls).1
  | Raise _ => True
  end.
Proof.
  unfold Enrich.enrich_data_with_avatars.
  by destruct (Enrich.enrich_loop avatar_urls d 0) as [s [n|e]].
Qed.

Lemma main_disk key w :
  disk (Enrich.main key w).1 =
  match loads w with
  | None => disk w
  | Some d =>
      match write_outcome w Enrich.BACKUP_PATH with
      | OpenFails => disk w
      | WriteFails => <[Enrich.BACKUP_PATH := FOther]> (disk w)
      | Written =>
          match Enrich.extract_unique_channel_ids d with
          | Raise e => <[Enrich.BACKUP_PATH := FDataset d]> (disk w)
          | Ok channel_ids =>
              if bool_decide (channel_ids = ∅)
              then <[Enrich.BACKUP_PATH := FDataset d]> (disk w) else
              match (Enrich.fetch_channel_avatars_batch key
                       (set_order w channel_ids) w).2 with
              | Raise e => <[Enrich.BACKUP_PATH := FDataset d]> (disk w)
              | Ok avatar_urls =>
                  if bool_decide (avatar_urls = ∅)
                  then <[Enrich.BACKUP_PATH := FDataset d]> (disk w) else
                  match (Enrich.enrich_data_with_avatars d avatar_urls).2 with
                  | Raise e => <[Enrich.BACKUP_PATH := FDataset d]> (disk w)
                  | Ok data' =>
                      match write_outcome w Enrich.DATA_JSON_PATH with
                      | Written =>
                          <[Enrich.DATA_JSON_PATH := FDataset data']>
                            (<[Enrich.BACKUP_PATH := FDataset d]> (disk w))
                      | OpenFails =>
                          <[Enrich.BACKUP_PATH := FDataset d]> (disk w)
                      | WriteFails =>
                          <[Enrich.DATA_JSON_PATH := FOther]>
                            (<[Enrich.BACKUP_PATH := FDataset d]> (disk w))
                      end
                  end
              end
          end
      end
  end.
Proof.
  unfold Enrich.main, loads, Enrich.load_json_data, try_except, read_json.
  unfold mbind at 1, io_bind at 1.
  destruct (disk w !! Enrich.DATA_JSON_PATH) as [[d| |]|]; try done.
  unfold mbind at 1, io_bind at 1.
  unfold Enrich.save_json_data at 1, try_except, write_file.
  destruct (write_outcome w Enrich.BACKUP_PATH) eqn:Hb; try done.
  unfold mbind at 1, io_bind at 1, lift.
  destruct (Enrich.extract_unique_channel_ids d) as [channel_ids|]; [|done].
  case_bool_decide; [done|].
  unfold mbind at 1, io_bind at 1, ask. cbn [set_order set_disk].
  unfold mbind at 1, io_bind at 1.
  rewrite fetch_set_disk.
  pose proof (fetch_files key (set_order w channel_ids) w) as [_ Hw].
  destruct (Enrich.fetch_channel_avatars_batch key (set_order w channel_ids) w)
    as [w' [avatar_urls|e]]; [|done].
  cbn [fst snd] in *. case_bool_decide; [done|].
  unfold mbind at 1, io_bind at 1, lift.
  destruct (Enrich.enrich_data_with_avatars d avatar_urls) as [s [data'|e]];
    [|done].
  cbn [snd]. unfold Enrich.save_json_data, try_except, write_file.
  cbn [write_outcome set_disk]. rewrite Hw.
  by destruct (write_outcome w Enrich.DATA_JSON_PATH).
Qed.

(** X8. The enrichment run leaves every file other than the dataset and its
    backup as it was, however it ends. *)
Theorem enrichment_touches_two_files_only key w path :
  path ≠ Enrich.DATA_JSON_PATH →
  path ≠ Enrich.BACKUP_PATH →
  disk (Enrich.main key w).1 !! path = disk w !! path.
Proof.
  intros Hd Hb. rewrite main_disk.
  repeat match goal with
    | |- context [match ?x with _ => _ end] => destruct x
    end;
    rewrite ?lookup_insert_ne by done; done.
Qed.

(** X10. The dataset file changes only at the very end of a run.  When the
    run returns, the file holds the collection as the Merger left it, for
    the avatars that the fetch gave.  When the run fails, the file is as it
    was, unless it is the last write itself that broke off after truncating
    the file. *)
Theorem dataset_file_after_run key w :
  match (Enrich.main key w).2 with
  | Ok _ =>
      ∃ d channel_ids avatar_urls,
        loads w = Some d
        ∧ Enrich.extract_unique_channel_ids d = Ok channel_ids
        ∧ (Enrich.fetch_channel_avatars_batch key (set_order w channel_ids) w).2
          = Ok avatar_urls
        ∧ disk (Enrich.main key w).1 !! Enrich.DATA_JSON_PATH
          = Some (FDataset (Enrich.enrich_data_with_avatars d avatar_urls).1)
  | Raise _ =>
      disk (Enrich.main key w).1 !! Enrich.DATA_JSON_PATH
      = disk w !! Enrich.DATA_JSON_PATH
      ∨ (write_outcome w Enrich.DATA_JSON_PATH = WriteFails
         ∧ disk (Enrich.main key w).1 !! Enrich.DATA_JSON_PATH = Some FOther)
  end.
Proof.
  rewrite main_disk, main_result.
  destruct (loads w) as [d|]; [|by left].
  destruct (write_outcome w Enrich.BACKUP_PATH);
    [|by left|left; by rewrite lookup_insert_ne].
  destruct (Enrich.extract_unique_channel_ids d) as [channel_ids|] eqn:Hex;
    [|left; by rewrite lookup_insert_ne].
  case_bool_decide; [left; by rewrite lookup_insert_ne|].
  destruct (Enrich.fetch_channel_avatars_batch key (set_order w channel_ids) w).2
    as [avatar_urls|] eqn:Hf; [|left; by rewrite lookup_insert_ne].
  case_bool_decide; [left; by rewrite lookup_insert_ne|].
  pose proof (merger_state_returned d avatar_urls) as Hret.
  destruct (Enrich.enrich_data_with_avatars d avatar_urls) as [s [data'|]]
    eqn:Hen; cbn [fst snd] in *; [|left; by rewrite lookup_insert_ne].
  subst data'.
  destruct (write_outcome w Enrich.DATA_JSON_PATH).
  - exists d, channel_ids, avatar_urls. split_and!; try done.
    by rewrite Hen, lookup_insert_eq.
  - left. by rewrite lookup_insert_ne.
  - right. split; [done|]. by rewrite lookup_insert_eq.
Qed.

Lemma main_sent key w :
  sent (Enrich.main key w).1 =
  match loads w with
  | None => sent w
  | Some d =>
      match write_outcome w Enrich.BACKUP_PATH with
      | Written =>
          match Enrich.extract_unique_channel_ids d with
          | Raise e => sent w
          | Ok channel_ids =>
              if bool_decide (channel_ids = ∅) then sent w else
              sent (Enrich.fetch_channel_avatars_batch key
                      (set_order w channel_ids) w).1
          end
      | _ => sent w
      end
  end.
Proof.
  unfold Enrich.main, loads, Enrich.load_json_data, try_except, read_json.
  unfold mbind at 1, io_bind at 1.
  destruct (disk w !! Enrich.DATA_JSON_PATH) as [[d| |]|]; try done.
  unfold mbind at 1, io_bind at 1.
  unfold Enrich.save_json_data at 1, try_except, write_file.
  destruct (write_outcome w Enrich.BACKUP_PATH) eqn:Hb; try done.
  unfold mbind at 1, io_bind at 1, lift.
  destruct (Enrich.extract_unique_channel_ids d) as [channel_ids|]; [|done].
  case_bool_decide; [done|].
  unfold mbind at 1, io_bind at 1, ask. cbn [set_order set_disk].
  unfold mbind at 1, io_bind at 1.
  rewrite fetch_set_disk.
  destruct (Enrich.fetch_channel_avatars_batch key (set_order w channel_ids) w)
    as [w' [avatar_urls|e]]; [|done].
  cbn [fst snd] in *. case_bool_decide; [done|].
  unfold mbind at 1, io_bind at 1, lift.
  destruct (Enrich.enrich_data_with_avatars d avatar_urls) as [s [data'|e]];
    [|done].
  cbn [snd]. unfold Enrich.save_json_data, try_except, write_file.
  cbn [write_outcome set_disk].
  by destruct (write_outcome w' Enrich.DATA_JSON_PATH).
Qed.

(** X9. With an API key that is empty or the placeholder, as the script
    ships, a run sends no request at all and ends with status 1; the
    dataset file is as it was. *)
Theorem unconfigured_key_sends_nothing key w :
  Enrich.key_configured key = false →
  sent (Enrich.main key w).1 = sent w
  ∧ disk (Enrich.main key w).1 !! Enrich.DATA_JSON_PATH
    = disk w !! Enrich.DATA_JSON_PATH
  ∧ exit_status (Enrich.main key w).2 = 1%Z.
Proof.
  intros Hkey. rewrite main_sent, main_disk, main_result.
  unfold Enrich.fetch_channel_avatars_batch. rewrite Hkey.
  destruct (loads w) as [d|]; [|done].
  destruct (write_outcome w Enrich.BACKUP_PATH);
    rewrite ?lookup_insert_ne by done; [|done..].
  pose proof (extract_loop_spec d ∅) as Hex.
  unfold Enrich.extract_unique_channel_ids.
  destruct (Enrich.extract_loop d ∅) as [channel_ids|e];
    rewrite ?lookup_insert_ne by done.
  - unfold sys_exit, raise. cbn [fst snd].
    case_bool_decide; by rewrite ?lookup_insert_ne.
  - by destruct Hex as [-> _].
Qed.

(** * Further properties of the report script *)

(** ** When the Grouper raises *)

Lemma key_cases (video : record) :
  (groupable video = true
   ∧ ∃ key h, Report.channel_key video = Ok key ∧ Report.hash_tuple key = Ok h)
  ∨ (groupable video = false
     ∧ Report.channel_key video ≫= Report.hash_tuple
       = Raise (key_error video)).
Proof.
  unfold groupable, key_error, Report.channel_key, dict_has, dict_item.
  destruct (dict_get "channelId" video) as [c|]; [|by right].
  destruct (dict_get "channelTitle" video) as [t|]; [|by right].
  set (a := dict_get_default "channelAvatarUrl" (JStr "") video).
  unfold Report.hash_tuple. simpl.
  destruct c, t, a; simpl; (by right) || (left; eauto).
Qed.

Lemma group_loop_outcome videos channels :
  match Report.group_loop videos channels with
  | Ok _ => forallb groupable videos = true
  | Raise e =>
      ∃ prefix video rest,
        videos = prefix ++ video :: rest
        ∧ forallb groupable prefix = true
        ∧ groupable video = false
        ∧ e = key_error video
  end.
Proof.
  revert channels. induction videos as [|video videos IH]; intros channels.
  - done.
  - cbn [Report.group_loop forallb].
    destruct (key_cases video) as [(Hg & key & h & Hck & Hh)|[Hg Hraise]].
    + rewrite Hck. simpl. rewrite Hh. simpl. rewrite Hg. cbn [andb].
      specialize (IH (Report.add_video h key video channels)).
      destruct (Report.group_loop videos _) as [channels'|e]; [done|].
      destruct IH as (prefix & bad & rest & -> & Hp & Hb & ->).
      exists (video :: prefix), bad, rest. split_and!; try done.
      cbn [forallb]. by rewrite Hg.
    + assert (Hrun : (Report.channel_key video ≫= fun key =>
                Report.hash_tuple key ≫= fun h =>
                  Report.group_loop videos (Report.add_video h key video channels))
              = Raise (key_error video)).
      { unfold mbind, result_bind in *.
        destruct (Report.channel_key video) as [key|e0].
        - by rewrite Hraise.
        - by injection Hraise as ->. }
      rewrite Hrun. by exists [], video, videos.
Qed.

(** X11. The Grouper returns exactly on the collections whose records all
    have a [channelId] and a [channelTitle] that can be hashed, the avatar
    too when there is one.  Otherwise it raises at the first record that is
    not so: [KeyError] when one of the two keys is missing, [TypeError] when
    both are there and a component cannot be hashed. *)
Theorem grouper_outcome videos :
  match Report.group_videos_by_channel videos with
  | Ok _ => forallb groupable videos = true
  | Raise e =>
      ∃ prefix video rest,
        videos = prefix ++ video :: rest
        ∧ forallb groupable prefix = true
        ∧ groupable video = false
        ∧ e = key_error video
  end.
Proof.
  unfold Report.group_videos_by_channel.
  pose proof (group_loop_outcome videos []) as H.
  by destruct (Report.group_loop videos []).
Qed.

(** X12. The groups are sorted as Python's [sorted] with [reverse=True]
    sorts them: the result has the same groups, no group comes before a
    larger one, and the groups of one size keep the order they had. *)
Theorem groups_are_sorted_stably channels :
  Report.sorted_desc channels ≡ₚ channels
  ∧ StronglySorted bigger_first (Report.sorted_desc channels)
  ∧ ∀ n, filter (fun g => length g.2 = n) (Report.sorted_desc channels)
         = filter (fun g => length g.2 = n) channels.
Proof.
  split_and!.
  - apply sorted_desc_perm.
  - apply sorted_desc_sorted.
  - intros n. apply sorted_desc_stable.
Qed.

(** ** When the Renderer raises *)

Lemma mapM_result {A B} (f : A → result B) (l : list A) :
  match mapM f l with
  | Ok ys => Forall2 (fun x y => f x = Ok y) l ys
  | Raise e => ∃ x, x ∈ l ∧ f x = Raise e
  end.
Proof.
  induction l as [|x l IH]; [by constructor|].
  cbn [mapM]. destruct (f x) as [y|e] eqn:Hx; simpl.
  - destruct (mapM f l) as [ys|e]; simpl.
    + by constructor.
    + destruct IH as (x' & Hin & Hx'). exists x'. split; [by right | done].
  - exists x. split; [by left | done].
Qed.

Lemma render_video_cases (video : record) :
  match Report.render_video video with
  | Ok _ => renderable video = true
  | Raise e =>
      renderable video = false
      ∧ (e = ValueError ∨ e = TypeError ∨ e = AttributeError)
  end.
Proof.
  unfold Report.render_video, renderable.
  destruct (dict_get_default "viewCount" (JInt 0) video); simpl; auto;
    destruct (dict_get_default "title" (JStr "Sans titre") video); simpl; auto.
Qed.

Lemma render_channel_cases (g : Report.chan_key * list record) :
  match Report.render_channel g with
  | Ok _ => forallb renderable g.2 = true
  | Raise e =>
      forallb renderable g.2 = false
      ∧ (e = ValueError ∨ e = TypeError ∨ e = AttributeError)
  end.
Proof.
  destruct g as [[[cid name] avatar] videos]. cbn [Report.render_channel snd].
  pose proof (mapM_result Report.render_video videos) as H.
  destruct (mapM Report.render_video videos) as [cards|e]; simpl.
  - apply forallb_forall. intros v Hv. apply list_elem_of_In in Hv.
    apply list_elem_of_lookup in Hv as [i Hi].
    destruct (Forall2_lookup_l _ _ _ _ _ H Hi) as (card & _ & Hcard).
    pose proof (render_video_cases v) as Hc. by rewrite Hcard in Hc.
  - destruct H as (v & Hin & Hv).
    pose proof (render_video_cases v) as Hc. rewrite Hv in Hc.
    destruct Hc as [Hr He]. split; [|done].
    apply not_true_is_false. intros Hall.
    rewrite forallb_forall in Hall.
    specialize (Hall v (proj1 (list_elem_of_In _ _) Hin)). congruence.
Qed.

Lemma generate_html_cases channels timestamp :
  match Report.generate_html channels timestamp with
  | Ok page =>
      Forall (fun g => forallb renderable g.2 = true) channels
      ∧ ∃ body,
          page = [Lit "<html><div class=stats>"; Num (length channels);
                  Grouped (Z.of_nat (sum_list ((fun g => length g.2) <$> channels)));
                  Lit "</div>"] ++ body
                 ++ [Lit "<div class=timestamp>"; Lit timestamp;
                     Lit "</div></html>"]
  | Raise e =>
      Exists (fun g => forallb renderable g.2 = false) channels
      ∧ (e = ValueError ∨ e = TypeError ∨ e = AttributeError)
  end.
Proof.
  unfold Report.generate_html.
  pose proof (mapM_result Report.render_channel channels) as H.
  destruct (mapM Report.render_channel channels) as [sections|e]; simpl.
  - split; [|by eexists].
    apply Forall_forall. intros g Hg.
    apply list_elem_of_lookup in Hg as [i Hi].
    destruct (Forall2_lookup_l _ _ _ _ _ H Hi) as (sec & _ & Hsec).
    pose proof (render_channel_cases g) as Hc. by rewrite Hsec in Hc.
  - destruct H as (g & Hin & Hg).
    pose proof (render_channel_cases g) as Hc. rewrite Hg in Hc.
    destruct Hc as [Hr He]. split; [|done].
    apply Exists_exists. by exists g.
Qed.

(** X13. The Renderer returns exactly when every video of every group can
    be shown: its view count, when there is one, is a number, and its
    title, when there is one, is a string.  The page then starts with the
    number of groups and the total of their sizes and ends with the
    timestamp.  Otherwise the Renderer raises [ValueError], [TypeError] or
    [AttributeError], and there is no page. *)
Theorem renderer_outcome channels timestamp :
  match Report.generate_html channels timestamp with
  | Ok page =>
      Forall (fun g => forallb renderable g.2 = true) channels
      ∧ ∃ body,
          page = [Lit "<html><div class=stats>"; Num (length channels);
                  Grouped (Z.of_nat (sum_list ((fun g => length g.2) <$> channels)));
                  Lit "</div>"] ++ body
                 ++ [Lit "<div class=timestamp>"; Lit timestamp;
                     Lit "</div></html>"]
  | Raise e =>
      Exists (fun g => forallb renderable g.2 = false) channels
      ∧ (e = ValueError ∨ e = TypeError ∨ e = AttributeError)
  end.
Proof. apply generate_html_cases. Qed.

(** ** The report run *)

Lemma report_main_cases w :
  Report.main w =
  match disk w !! Report.data_file with
  | None => (w, Ok ())
  | Some (FDataset videos) =>
      match Report.group_videos_by_channel videos with
      | Raise e => (w, Raise e)
      | Ok channels =>
          match Report.generate_html channels (now w) with
          | Raise e => (w, Raise e)
          | Ok page =>
              match write_outcome w Report.output_file with
              | Written =>
                  (set_disk (<[Report.output_file := FPage page]> (disk w)) w,
                   Report.true_div (length videos) (length channels)
                   ≫= fun _ => Ok ())
              | OpenFails => (w, Raise OSError)
              | WriteFails =>
                  (set_disk (<[Report.output_file := FOther]> (disk w)) w,
                   Raise OSError)
              end
          end
      end
  | Some _ => (w, Raise ValueError)
  end.
Proof.
  unfold Report.main, Report.path_exists, Report.load_youtube_data, read_json,
    ask, lift, write_file.
  unfold mbind at 1, io_bind at 1.
  destruct (disk w !! Report.data_file) as [f|] eqn:Hf.
  2:{ by rewrite bool_decide_eq_false_2 by (by intros [? ?]). }
  rewrite bool_decide_eq_true_2 by by eexists. cbn [negb].
  unfold mbind at 1, io_bind at 1. rewrite Hf.
  destruct f as [videos| |]; try done.
  unfold mbind at 1, io_bind at 1.
  destruct (Report.group_videos_by_channel videos) as [channels|]; [|done].
  unfold mbind at 1, io_bind at 1. unfold mbind at 1, io_bind at 1.
  destruct (Report.generate_html channels (now w)) as [page|]; [|done].
  unfold mbind at 1, io_bind at 1.
  destruct (write_outcome w Report.output_file); try done.
  unfold mbind at 1, io_bind at 1.
  by destruct (Report.true_div (length videos) (length channels)).
Qed.

Lemma grouper_groups videos channels :
  Report.group_videos_by_channel videos = Ok channels →
  forallb groupable videos = true ∧ concat (snd <$> channels) ≡ₚ videos.
Proof.
  intros H. pose proof (group_loop_outcome videos []) as Hout.
  unfold Report.group_videos_by_channel in H.
  destruct (Report.group_loop videos []) as [channels'|] eqn:Hrun; [|done].
  simpl in H. injection H as <-. split; [done|].
  destruct (group_loop_grouped videos [] [] Hout) as (c & Hc & Hperm & _).
  { split_and!; [done | constructor | constructor]. }
  rewrite Hrun in Hc. injection Hc as <-. cbn [app] in Hperm.
  rewrite <- Hperm. apply concat_perm. by rewrite sorted_desc_perm.
Qed.

Lemma renderable_groups videos (channels : list (Report.chan_key * list record)) :
  concat (snd <$> channels) ≡ₚ videos →
  Forall (fun g => forallb renderable g.2 = true) channels
  ↔ forallb renderable videos = true.
Proof.
  intros Hperm.
  assert (Hv : forallb renderable videos = true
               ↔ Forall (fun v => renderable v = true) videos).
  { rewrite forallb_forall, Forall_forall.
    split; intros H v Hin; apply H; by apply list_elem_of_In. }
  rewrite Hv, <- Hperm. clear.
  induction channels as [|g channels IH].
  - split; constructor.
  - rewrite Forall_cons, fmap_cons. cbn [concat]. rewrite Forall_app, IH.
    assert (forallb renderable g.2 = true
            ↔ Forall (fun v => renderable v = true) g.2) as ->; [|done].
    rewrite forallb_forall, Forall_forall.
    split; intros H v Hin; apply H; by apply list_elem_of_In.
Qed.

(** X14. The report run returns normally in two cases only: the dataset
    file is not there, and then nothing is done; or the dataset loads, is
    not empty, every record can be keyed and shown, and the page can be
    written.  In every other case it ends with an exception. *)
Theorem report_returns_iff w :
  (Report.main w).2 = Ok () ↔
  disk w !! Report.data_file = None
  ∨ ∃ videos,
      disk w !! Report.data_file = Some (FDataset videos)
      ∧ 0 < length videos
      ∧ forallb groupable videos = true
      ∧ forallb renderable videos = true
      ∧ write_outcome w Report.output_file = Written.
Proof.
  rewrite report_main_cases.
  destruct (disk w !! Report.data_file) as [[videos| |]|] eqn:Hf;
    [| |split; [done | by intros [?|(? & ? & _)]]..| by split; [left|]].
  2:{ split; [done | by intros [?|(? & ? & _)]]. }
  destruct (Report.group_videos_by_channel videos) as [channels|e] eqn:Hg.
  - destruct (grouper_groups videos channels Hg) as [Hgr Hperm].
    pose proof (generate_html_cases channels (now w)) as Hhtml.
    pose proof (renderable_groups videos channels Hperm) as Hren.
    assert (Hlen : length channels = 0 → length videos = 0).
    { intros Hz. destruct channels; [|done]. rewrite <- Hperm. done. }
    destruct (Report.generate_html channels (now w)) as [page|e'].
    + destruct Hhtml as [Hall _]. apply Hren in Hall.
      destruct (write_outcome w Report.output_file) eqn:Hw; cbn [snd].
      * unfold Report.true_div.
        destruct (length channels) eqn:Hc; simpl.
        -- split; [done|]. intros [?|(v & Hv & Hpos & _)]; [done|].
           injection Hv as <-. specialize (Hlen eq_refl). lia.
        -- split; [|done]. intros _. right. exists videos.
           split_and!; try done.
           destruct videos; [|simpl; lia].
           apply Permutation_nil_r in Hperm.
           destruct channels as [|g channels]; [done|].
           exfalso. revert Hg. unfold Report.group_videos_by_channel.
           simpl. done.
      * split; [done|]. intros [?|(v & Hv & _ & _ & _ & ?)]; done.
      * split; [done|]. intros [?|(v & Hv & _ & _ & _ & ?)]; done.
    + destruct Hhtml as [Hex _]. cbn [snd]. split; [done|].
      intros [?|(v & Hv & _ & _ & Hr & _)]; [done|]. injection Hv as <-.
      apply Hren in Hr. apply Exists_exists in Hex as (g & Hin & Hbad).
      rewrite Forall_forall in Hr. specialize (Hr g Hin). congruence.
  - pose proof (group_loop_outcome videos []) as Hout.
    unfold Report.group_videos_by_channel in Hg.
    destruct (Report.group_loop videos []) as [|e0]; [done|].
    destruct Hout as (prefix & bad & rest & -> & Hp & Hb & _).
    cbn [snd]. split; [done|].
    intros [?|(v & Hv & _ & Hgr & _)]; [done|]. injection Hv as <-.
    rewrite forallb_app in Hgr. cbn [forallb] in Hgr. rewrite Hb in Hgr.
    by rewrite andb_false_r in Hgr.
Qed.

(** X15. The report run writes to its output file only: every other file,
    the dataset among them, is as it was, and no request is sent. *)
Theorem report_touches_output_only w path :
  path ≠ Report.output_file →
  disk (Report.main w).1 !! path = disk w !! path
  ∧ sent (Report.main w).1 = sent w.
Proof.
  intros Hpath. rewrite report_main_cases.
  repeat match goal with
    | |- context [match ?x with _ => _ end] => destruct x
    end;
    cbn [fst disk sent set_disk]; rewrite ?lookup_insert_ne by done; done.
Qed.

(** ** Enrichment, then report *)






(** ** What a run asks the API *)

Lemma kstr_fmap_elem (strs : list string) s :
  KStr s ∈ (KStr <$> strs) ↔ s ∈ strs.
Proof.
  rewrite list_elem_of_fmap. split.
  - by intros (s' & [= ->] & Hin).
  - intros Hin. by exists s.
Qed.

(** X17. Each channel of the dataset is asked for once.  With the key
    configured, a dataset whose channel ids are strings and the backup
    written, the requests of a run carry, taken together, every channel id
    of the dataset exactly once and nothing else, each with the key. *)
Theorem run_requests_each_channel_once key w d :
  Enrich.key_configured key = true →
  loads w = Some d →
  write_outcome w Enrich.BACKUP_PATH = Written →
  forallb string_id d = true →
  (∀ s, set_order w s ≡ₚ elements s) →
  ∃ reqs,
    sent (Enrich.main key w).1 = sent w ++ reqs
    ∧ NoDup (concat (req_ids <$> reqs))
    ∧ (∀ s, s ∈ concat (req_ids <$> reqs) ↔
            ∃ item, item ∈ d ∧ dict_get "channelId" item = Some (JStr s))
    ∧ Forall (fun r => req_key r = key ∧ length (req_ids r) ≤ 50) reqs.
Proof.
  intros Hkey Hload Hb Htyped Horder.
  rewrite main_sent, Hload, Hb.
  destruct (extract_loop_strings d ∅ Htyped) as (ids & Hids & Hstr);
    [intros k Hk; by apply not_elem_of_empty in Hk|].
  pose proof (extract_loop_spec d ∅) as Hspec. rewrite Hids in Hspec.
  unfold Enrich.extract_unique_channel_ids. rewrite Hids.
  assert (Hmem : ∀ s, KStr s ∈ ids ↔
            ∃ item, item ∈ d ∧ dict_get "channelId" item = Some (JStr s)).
  { intros s. rewrite Hspec. split.
    - intros [Hin|(item & v & Hin & Hv & Hk)];
        [by apply not_elem_of_empty in Hin|].
      exists item. split; [done|]. by destruct v; simplify_eq/=.
    - intros (item & Hin & Hv). right. by exists item, (JStr s). }
  case_bool_decide as Hempty.
  - exists []. rewrite app_nil_r. split_and!; [done | constructor | | constructor].
    intros s. rewrite <- Hmem, Hempty. split; intros Hin.
    + by apply elem_of_nil in Hin.
    + by apply not_elem_of_empty in Hin.
  - destruct (kstr_list (set_order w ids)) as [strs Hstrs].
    { intros k Hk. apply Hstr. rewrite (Horder ids) in Hk.
      by apply elem_of_elements in Hk. }
    rewrite Hstrs. unfold Enrich.fetch_channel_avatars_batch.
    rewrite Hkey, length_fmap. change Enrich.batch_size with 50.
    destruct (fetch_loop_str key (py_range 0 (length strs) 50) strs ∅ w)
      as (m' & -> & _).
    set (reqs := chunk_requests key strs (py_range 0 (length strs) 50)).
    assert (Hcat : concat (req_ids <$> reqs) = strs).
    { unfold reqs, chunk_requests. rewrite <- list_fmap_compose.
      unfold py_range. etrans; [apply range_from_concat; lia | apply drop_0]. }
    exists reqs. rewrite Hcat. split_and!.
    + done.
    + apply (NoDup_fmap_1 KStr). rewrite <- Hstrs, (Horder ids).
      apply NoDup_elements.
    + intros s. rewrite <- Hmem, <- kstr_fmap_elem, <- Hstrs, (Horder ids).
      apply elem_of_elements.
    + unfold reqs, chunk_requests, py_range. apply Forall_fmap.
      eapply Forall_impl; [apply range_from_bound|].
      intros i Hi. simpl. split; [done|]. by apply py_slice_length.
Qed.

(** X18. After a run that returns, the dataset and its backup differ in
    [channelAvatarUrl] only: they have the same records in the same order,
    and each record of the dataset has, for every other field, the value
    that the backup has. *)
Theorem dataset_differs_from_backup_in_avatars_only key w :
  (Enrich.main key w).2 = Ok () →
  ∃ d d',
    disk (Enrich.main key w).1 !! Enrich.BACKUP_PATH = Some (FDataset d)
    ∧ disk (Enrich.main key w).1 !! Enrich.DATA_JSON_PATH = Some (FDataset d')
    ∧ Forall2 (fun r r' =>
                 ∀ field, field ≠ "channelAvatarUrl" →
                          dict_get field r' = dict_get field r) d d'.
Proof.
  rewrite main_disk, main_result.
  destruct (loads w) as [d|]; [|done].
  destruct (write_outcome w Enrich.BACKUP_PATH); [|done..].
  destruct (Enrich.extract_unique_channel_ids d) as [channel_ids|]; [|done].
  case_bool_decide; [done|].
  destruct (Enrich.fetch_channel_avatars_batch key (set_order w channel_ids) w).2
    as [avatar_urls|]; [|done].
  case_bool_decide; [done|].
  pose proof (merger_state_returned d avatar_urls) as Hret.
  pose proof (enrich_loop_frame avatar_urls d 0) as Hframe.
  unfold Enrich.enrich_data_with_avatars in *.
  destruct (Enrich.enrich_loop avatar_urls d 0) as [s [n|]]; [|done].
  cbn [fst snd fmap result_fmap] in *.
  destruct (write_outcome w Enrich.DATA_JSON_PATH); [|done..].
  intros _. exists d, s. split_and!.
  - rewrite lookup_insert_ne by done. apply lookup_insert_eq.
  - apply lookup_insert_eq.
  - eapply Forall2_impl; [exact Hframe|].
    by intros r r' (_ & _ & Hfields & _).
Qed.

Lemma extract_loop_same_ids data data' channel_ids :
  Forall2 (fun r r' : record =>
             dict_get "channelId" r' = dict_get "channelId" r) data data' →
  Enrich.extract_loop data' channel_ids = Enrich.extract_loop data channel_ids.
Proof.
  intros H. revert channel_ids.
  induction H as [|r r' data data' Hr _ IH]; intros channel_ids; [done|].
  rewrite !extract_loop_cons, Hr.
  destruct (hash_key <$> dict_get "channelId" r) as [[k|e]|]; auto.
Qed.

(** X20. The Merger does not change what the Deduplicator sees: on the
    collection as a merge leaves it, also a merge that raises half-way, the
    Deduplicator returns what it returns on the collection as it was, so
    that a later run asks for the same channels. *)
Theorem merge_keeps_channel_ids data avatar_urls :
  Enrich.extract_unique_channel_ids
    (Enrich.enrich_data_with_avatars data avatar_urls).1
  = Enrich.extract_unique_channel_ids data.
Proof.
  unfold Enrich.extract_unique_channel_ids. apply extract_loop_same_ids.
  pose proof (enrich_loop_frame avatar_urls data 0) as Hframe.
  unfold Enrich.enrich_data_with_avatars.
  destruct (Enrich.enrich_loop avatar_urls data 0) as [s r]. cbn [fst] in *.
  eapply Forall2_impl; [exact Hframe|].
  by intros r0 r' (_ & _ & _ & Hid).
Qed.

(** ** How many groups *)



(** * The further properties at concrete inputs *)

Lemma extract_ignores_order_witness :
  [ex_video "v1" "A"; ex_video "v2" "B"; ex_video "v3" "A"]
  ≡ₚ [ex_video "v2" "B"; ex_video "v1" "A"; ex_video "v3" "A"]
  ∧ Enrich.extract_unique_channel_ids
      [ex_video "v1" "A"; ex_video "v2" "B"; ex_video "v3" "A"]
    = Enrich.extract_unique_channel_ids
        [ex_video "v2" "B"; ex_video "v1" "A"; ex_video "v3" "A"].
Proof.
  split; [apply perm_swap|].
  apply (extract_ignores_order
           [ex_video "v1" "A"; ex_video "v2" "B"; ex_video "v3" "A"]
           [ex_video "v2" "B"; ex_video "v1" "A"; ex_video "v3" "A"]).
  apply perm_swap.
Defined.

Lemma merger_enriches_mapped_records_witness :
  forallb string_id ex_dataset = true
  ∧ Enrich.enrich_data_with_avatars ex_dataset ex_avatars
    = (merge_record ex_avatars <$> ex_dataset,
       Ok (merge_record ex_avatars <$> ex_dataset))
  ∧ Enrich.enrich_loop ex_avatars ex_dataset 0
    = (merge_record ex_avatars <$> ex_dataset,
       Ok (length (filter (fun r => is_Some (avatar_of ex_avatars r))
                     ex_dataset)))
  ∧ Forall (fun r => ∀ url, avatar_of ex_avatars r = Some url →
              dict_get "channelAvatarUrl" (merge_record ex_avatars r) = Some url)
      ex_dataset.
Proof.
  split; [reflexivity|].
  apply (merger_enriches_mapped_records ex_dataset ex_avatars). reflexivity.
Defined.

Lemma item_error_keeps_earlier_items_witness :
  Enrich.process_items (ex_console_without "Channel C") [ex_item_A] ∅
  = (ex_avatars, Ok ())
  ∧ Enrich.process_item (ex_console_without "Channel C") ex_avatars ex_item_C
    = (ex_avatars_C, Raise UnicodeEncodeError)
  ∧ Enrich.process_items (ex_console_without "Channel C")
      ([ex_item_A] ++ ex_item_C :: [ex_item_D]) ∅
    = (ex_avatars_C, Raise UnicodeEncodeError)
  ∧ Enrich.try_block (ex_console_without "Channel C")
      (Body (JObj [("items", JArr ([ex_item_A] ++ ex_item_C :: [ex_item_D]))]))
      [KStr "A"; KStr "C"; KStr "D"] ∅
    = (ex_avatars_C, Raise UnicodeEncodeError)
  ∧ Enrich.after_response (ex_console_without "Channel C")
      (Body (JObj [("items", JArr ([ex_item_A] ++ ex_item_C :: [ex_item_D]))]))
      [KStr "A"; KStr "C"; KStr "D"] ∅ = ex_avatars_C
  ∧ dom ex_avatars ⊆ dom ex_avatars_C
  ∧ (ex_avatars_C = ex_avatars
     ∨ (UnicodeEncodeError = UnicodeEncodeError
        ∧ ∃ cid title url k,
            Enrich.read_item ex_item_C = Ok (cid, title, url)
            ∧ hash_key cid = Ok k ∧ truthy url = true
            ∧ (ex_console_without "Channel C" title
               && ex_console_without "Channel C" url = false)
            ∧ ex_avatars_C = <[k := url]> ex_avatars)).
Proof.
  split; [reflexivity|]. split; [reflexivity|].
  apply (item_error_keeps_earlier_items (ex_console_without "Channel C")
           [ex_item_A] ex_item_C [ex_item_D]
           [KStr "A"; KStr "C"; KStr "D"] ∅ ex_avatars ex_avatars_C
           UnicodeEncodeError); reflexivity.
Defined.

Lemma falsy_high_hides_other_qualities_witness :
  dict_get "high" ex_thumbnails_empty_high = Some (ex_thumbnail "")
  ∧ dict_has "medium" ex_thumbnails_empty_high = true
  ∧ truthy (JStr "") = false
  ∧ Enrich.select_avatar (JObj ex_thumbnails_empty_high) = Ok (JStr "")
  ∧ (Enrich.process_item ex_console_all ∅
       (ex_item "C" ex_thumbnails_empty_high)).1 = ∅
  ∧ match py_getitem
            (JObj [("title", JStr "Channel C");
                   ("thumbnails", JObj ex_thumbnails_empty_high)]) "title" with
    | Ok title =>
        Enrich.process_item ex_console_all ∅
          (ex_item "C" ex_thumbnails_empty_high)
        = (∅, print_values ex_console_all [title])
    | Raise e =>
        Enrich.process_item ex_console_all ∅
          (ex_item "C" ex_thumbnails_empty_high) = (∅, Raise e)
    end.
Proof.
  split; [reflexivity|]. split; [reflexivity|]. split; [reflexivity|].
  apply (falsy_high_hides_other_qualities ex_console_all
           (ex_item "C" ex_thumbnails_empty_high) (JStr "C")
           (JObj [("title", JStr "Channel C");
                  ("thumbnails", JObj ex_thumbnails_empty_high)])
           ex_thumbnails_empty_high (ex_thumbnail "") (JStr "") ∅); reflexivity.
Defined.

Lemma non_string_id_aborts_fetch_witness :
  Enrich.key_configured "k" = true
  ∧ [KStr "A"; KInt 7] !! 1 = Some (KInt 7)
  ∧ is_kstr (KInt 7) = false
  ∧ (Enrich.fetch_channel_avatars_batch "k" [KStr "A"; KInt 7]
       (ex_world ex_api_online)).2 = Raise TypeError.
Proof.
  split; [reflexivity|]. split; [reflexivity|]. split; [reflexivity|].
  apply (non_string_id_aborts_fetch "k" [KStr "A"; KInt 7] 1 (KInt 7)
           (ex_world ex_api_online)); reflexivity.
Defined.

Lemma enrichment_touches_two_files_only_witness :
  disk (Enrich.main "k" (ex_world ex_api_online)).1 !! Report.data_file
  = disk (ex_world ex_api_online) !! Report.data_file.
Proof.
  apply (enrichment_touches_two_files_only "k" (ex_world ex_api_online)
           Report.data_file); by_computation.
Defined.

Lemma unconfigured_key_sends_nothing_witness :
  Enrich.key_configured Enrich.PLACEHOLDER = false
  ∧ sent (Enrich.main Enrich.PLACEHOLDER (ex_world ex_api_online)).1
    = sent (ex_world ex_api_online)
  ∧ disk (Enrich.main Enrich.PLACEHOLDER (ex_world ex_api_online)).1
      !! Enrich.DATA_JSON_PATH
    = disk (ex_world ex_api_online) !! Enrich.DATA_JSON_PATH
  ∧ exit_status (Enrich.main Enrich.PLACEHOLDER (ex_world ex_api_online)).2
    = 1%Z.
Proof.
  split; [reflexivity|].
  apply (unconfigured_key_sends_nothing Enrich.PLACEHOLDER
           (ex_world ex_api_online)).
  reflexivity.
Defined.

Lemma report_touches_output_only_witness :
  disk (Report.main (ex_world ex_api_online)).1 !! Report.data_file
  = disk (ex_world ex_api_online) !! Report.data_file
  ∧ sent (Report.main (ex_world ex_api_online)).1
    = sent (ex_world ex_api_online).
Proof.
  apply (report_touches_output_only (ex_world ex_api_online) Report.data_file).
  by_computation.
Defined.


Lemma run_requests_each_channel_once_witness :
  Enrich.key_configured "k" = true
  ∧ loads (ex_world ex_api_online) = Some ex_dataset
  ∧ forallb string_id ex_dataset = true
  ∧ ∃ reqs,
      sent (Enrich.main "k" (ex_world ex_api_online)).1
      = sent (ex_world ex_api_online) ++ reqs
      ∧ NoDup (concat (req_ids <$> reqs))
      ∧ (∀ s, s ∈ concat (req_ids <$> reqs) ↔
              ∃ item, item ∈ ex_dataset
                      ∧ dict_get "channelId" item = Some (JStr s))
      ∧ Forall (fun r => req_key r = "k" ∧ length (req_ids r) ≤ 50) reqs.
Proof.
  split; [reflexivity|]. split; [reflexivity|]. split; [reflexivity|].
  apply (run_requests_each_channel_once "k" (ex_world ex_api_online) ex_dataset);
    reflexivity.
Defined.

Lemma dataset_differs_from_backup_in_avatars_only_witness :
  (Enrich.main "k" (ex_world ex_api_online)).2 = Ok ()
  ∧ ∃ d d',
      disk (Enrich.main "k" (ex_world ex_api_online)).1 !! Enrich.BACKUP_PATH
      = Some (FDataset d)
      ∧ disk (Enrich.main "k" (ex_world ex_api_online)).1
          !! Enrich.DATA_JSON_PATH = Some (FDataset d')
      ∧ Forall2 (fun r r' =>
                   ∀ field, field ≠ "channelAvatarUrl" →
                            dict_get field r' = dict_get field r) d d'.
Proof.
  split; [by vm_compute|].
  apply (dataset_differs_from_backup_in_avatars_only "k"
           (ex_world ex_api_online)).
  by vm_compute.
Defined.

